(** * bookmark: a shallow embedding of main.go

    The program keeps a flat file of URLs (one per line).  [bookmark URL]
    fetches the page once and appends the normalised URL to the file,
    [bookmark -list] prints the stored URLs in sorted order.

    Go strings and [[]byte] are modelled as [string] (a list of 8-bit
    characters), Go [int] values as [Z], the [map[string]Bookmark] as a
    [gmap string Bookmark].  Everything the program receives from outside
    (the network, the clock, I/O failures, the URL parser of net/url) is
    collected in a record [Env], so that the functions below are total
    functions of their inputs and can be run on concrete inputs. *)

From Stdlib Require Import ZArith Ascii Lia.
From stdpp Require Import gmap strings sorting list.

Open Scope Z_scope.

(** ** Go library functions used by the program *)

Module Go.

Definition error := string.

(** The byte ['\n']. *)
Definition nl : ascii := "010"%char.

(** [bytes.SplitAfter(data, []byte("\n"))]: cut after every newline; the
    pieces keep their terminator, and the last piece is what follows the
    last newline (possibly empty). *)
Fixpoint SplitAfter (s : string) : list string :=
  match s with
  | EmptyString => [EmptyString]
  | String c s' =>
      if decide (c = nl) then String c EmptyString :: SplitAfter s'
      else match SplitAfter s' with
           | l :: ls => String c l :: ls
           | [] => [String c EmptyString]
           end
  end.

(** [bytes.TrimSuffix(line, []byte("\n"))]. *)
Fixpoint TrimSuffix (s : string) : string :=
  match s with
  | EmptyString => EmptyString
  | String c EmptyString => if decide (c = nl) then EmptyString else s
  | String c s' => String c (TrimSuffix s')
  end.

(** [len(f) == 0]. *)
Definition is_empty (s : string) : bool :=
  match s with EmptyString => true | _ => false end.

(** Arithmetic on [int64] wraps around. *)
Definition wrap64 (x : Z) : Z := (x + 2 ^ 63) mod 2 ^ 64 - 2 ^ 63.

(** ** Package strconv, for base 10 on a 64-bit platform *)

(** The value of a decimal digit: [ch -= '0'] on a byte, with [ch > 9]
    refused. *)
Definition digit (c : ascii) : option Z :=
  let n := Z.of_N (N_of_ascii c) in
  if (48 <=? n) && (n <=? 57) then Some (n - 48) else None.

(** The loop of the fast path of [Atoi]: [n = n*10 + int(ch)], stopped by
    the first byte that is not a digit. *)
Fixpoint digits (acc : Z) (s : string) : option Z :=
  match s with
  | EmptyString => Some acc
  | String c s' =>
      match digit c with
      | Some d => digits (10 * acc + d) s'
      | None => None
      end
  end.

Definition MinInt : Z := - 2 ^ 63.
Definition MaxInt : Z := 2 ^ 63 - 1.
Definition maxUint64 : Z := 2 ^ 64 - 1.

Inductive NumError := ErrSyntax | ErrRange.

(** A leading sign picked off: whether it was ['-'], and the rest. *)
Definition strip_sign (s : string) : bool * string :=
  match s with
  | String "-"%char r => (true, r)
  | String "+"%char r => (false, r)
  | _ => (false, s)
  end.

(** The loop of [ParseUint(s, 10, 64)] over the bytes of [s], [n] being a
    [uint64].  A byte that is not a decimal digit is a syntax error with
    value 0.  An overflow is a range error with value [maxUint64], and it
    is returned at once: the bytes that follow are not looked at. *)
Fixpoint ParseUint_loop (n : Z) (s : string) : Z * option NumError :=
  match s with
  | EmptyString => (n, None)
  | String c s' =>
      match digit c with
      | None => (0, Some ErrSyntax)
      | Some d =>
          (* cutoff = maxUint64/10 + 1 *)
          if maxUint64 / 10 + 1 <=? n then (maxUint64, Some ErrRange)
          else
            let n10 := (n * 10) mod 2 ^ 64 in
            let n1 := (n10 + d) mod 2 ^ 64 in
            if (n1 <? n10) || (maxUint64 <? n1)
            then (maxUint64, Some ErrRange)
            else ParseUint_loop n1 s'
      end
  end.

Definition ParseUint (s : string) : Z * option NumError :=
  match s with
  | EmptyString => (0, Some ErrSyntax)
  | _ => ParseUint_loop 0 s
  end.

(** [ParseInt(s, 10, 0)]. *)
Definition ParseInt (s : string) : Z * option NumError :=
  match s with
  | EmptyString => (0, Some ErrSyntax)
  | _ =>
      let '(neg, rest) := strip_sign s in
      match ParseUint rest with
      | (_, Some ErrSyntax) => (0, Some ErrSyntax)
      | (un, _) =>
          let cutoff := 2 ^ 63 in
          if negb neg && (cutoff <=? un) then (cutoff - 1, Some ErrRange)
          else if neg && (cutoff <? un) then (- cutoff, Some ErrRange)
          else (if neg then - un else un, None)
      end
  end.

Definition error_text (e : NumError) : error :=
  match e with
  | ErrSyntax => "invalid syntax"
  | ErrRange => "value out of range"
  end.

(** [strconv.Atoi]: strings of 1 to 18 bytes take the fast path, the others
    go through [ParseInt].  On a syntax error the value is 0; on a range
    error it is the nearest bound of [int]. *)
Definition Atoi (s : string) : Z * option error :=
  let sLen := String.length s in
  if (0 <? sLen)%nat && (sLen <? 19)%nat then
    let '(neg, body) := strip_sign s in
    match body with
    | EmptyString => (0, Some (error_text ErrSyntax))
    | _ =>
        match digits 0 body with
        | None => (0, Some (error_text ErrSyntax))
        | Some n => (if neg then - n else n, None)
        end
    end
  else
    let '(i64, err) := ParseInt s in (i64, error_text <$> err).

(** [sort.Strings]: sorts in increasing order of Go's [<] on strings,
    which compares byte by byte; that order is [String.le]. *)
Definition Strings (l : list string) : list string :=
  merge_sort String.le l.

(** ** Package time *)

(** A [time.Duration] is an [int64] count of nanoseconds. *)
Definition Second : Z := 1000000000.
Definition Minute : Z := 60 * Second.
Definition minDuration : Z := - 2 ^ 63.
Definition maxDuration : Z := 2 ^ 63 - 1.

(** A [time.Time] read off the wall clock: the seconds since January 1 of
    year 1, an [int64], and the nanoseconds within the second. *)
Record Time := { sec : Z; nsec : Z }.

(** Seconds from year 1 to 1970. *)
Definition unixToInternal : Z := 62135596800.

(** [time.Unix(sec, 0)]: the offset is added in [int64]. *)
Definition Unix (s : Z) : Time :=
  {| sec := wrap64 (s + unixToInternal); nsec := 0 |}.

(** What [time.Now()] returns when the clock reads [x] nanoseconds after
    the Unix epoch. *)
Definition at_nano (x : Z) : Time :=
  {| sec := x / Second + unixToInternal; nsec := x mod Second |}.

(** [t.Sub(u)]: the difference in nanoseconds when it fits a Duration,
    and otherwise the smallest or the largest Duration. *)
Definition Sub (t u : Time) : Z :=
  let d := (sec t - sec u) * Second + (nsec t - nsec u) in
  if d <? minDuration then minDuration
  else if maxDuration <? d then maxDuration
  else d.

End Go.

(** ** The bookmark store *)

Record Bookmark := { url : string }.

Record BookmarkDB := {
  file : string;
  data : string;
  bookmarks : gmap string Bookmark
}.

(** What [ioutil.ReadFile] can answer. *)
Inductive ReadResult :=
| ReadOK (content : string)
| ReadNotExist
| ReadFail (e : Go.error).

(** The loop of [readBookmarkDB] over the pieces of the file. *)
Definition add_line (m : gmap string Bookmark) (line : string)
  : gmap string Bookmark :=
  let f := Go.TrimSuffix line in
  if Go.is_empty f then m
  else let bm := {| url := f |} in <[url bm := bm]> m.

(** [readBookmarkDB]: [inl msg] is the [log.Fatal] exit. *)
Definition readBookmarkDB (path : string) (r : ReadResult)
  : Go.error + BookmarkDB :=
  let b := {| file := path; data := EmptyString; bookmarks := ∅ |} in
  match r with
  | ReadNotExist => inr b
  | ReadFail e => inl e
  | ReadOK content =>
      let lines := Go.SplitAfter content in
      inr {| file := path; data := content;
             bookmarks := foldl add_line ∅ lines |}
  end.

(** [fmt.Println(bm)] writes the string and a newline. *)
Definition Println (s : string) : string := s +:+ String Go.nl EmptyString.

(** What [list] writes for the strings it has collected, in the order in
    which Go's [range] over the map delivered the entries: the strings are
    sorted and printed one per line. *)
Definition print_lines (l : list string) : string :=
  foldr (λ bm out, Println bm +:+ out) EmptyString l.

Definition list_in_order (order : list (string * Bookmark)) : string :=
  let bookmarks := (λ kv, url kv.2) <$> order in
  print_lines (Go.Strings bookmarks).

(** [list]: Go ranges over a map in an unspecified order; [range] is the
    rearrangement this run applies to the entries of the map. *)
Definition list_bookmarks
    (range : list (string * Bookmark) → list (string * Bookmark))
    (db : BookmarkDB) : string :=
  list_in_order (range (map_to_list (bookmarks db))).

(** ** The page fetcher *)

(** What the program reads from an [http.Response]. *)
Record Response := {
  StatusCode : Z;
  (** [resp.Header.Get("Retry-After")]; empty when the header is absent *)
  RetryAfter : string;
  (** [resp.Location()] followed by [String()]; [None] when it fails *)
  Location : option string
}.

(** What one pass through the loop body meets. *)
Inductive Attempt :=
| NewRequestErr (e : Go.error)     (* http.NewRequest fails *)
| DoErr (e : Go.error)             (* client.Do fails *)
| ReadAllErr (e : Go.error)        (* reading the body fails *)
| Responded (r : Response).

Inductive Event :=
| Get (u : string)                 (* client.Do called on a GET of u *)
| Sleep (d : Z).                   (* time.Sleep(d), d a Duration *)

(** The outside world of one run of the program. *)
Record Env := {
  (** the path in the global [bookmarkDB] *)
  bookmarkDB : string;
  (** [url.Parse(s)] followed by [String()]; [None] when parsing fails *)
  Parse : string → option string;
  (** the outcome of the [k]-th pass of the loop, requesting [u] *)
  attempt : nat → string → Attempt;
  (** [time.Now()] during the [k]-th pass, in nanoseconds since the epoch *)
  Now : nat → Z;
  (** the order in which [range] visits the entries of a map *)
  range_order : list (string * Bookmark) → list (string * Bookmark);
  (** I/O failures: reading the file (other than its absence), opening it,
      writing (after [n] bytes), closing *)
  read_err : option Go.error;
  open_err : option Go.error;
  write_err : option (nat * Go.error);
  close_err : option Go.error
}.

Definition maxRetry : Z := 3.

(** The variables of [savePage], with the events so far and the number of
    passes started. *)
Record Loop := {
  retry : Z;
  urlstr : string;
  passes : nat;
  events : list Event
}.

Definition set_retry (st : Loop) (n : Z) : Loop :=
  {| retry := n; urlstr := urlstr st; passes := passes st;
     events := events st |}.
Definition set_urlstr (st : Loop) (u : string) : Loop :=
  {| retry := retry st; urlstr := u; passes := passes st;
     events := events st |}.
Definition log_event (st : Loop) (e : Event) : Loop :=
  {| retry := retry st; urlstr := urlstr st; passes := passes st;
     events := events st ++ [e] |}.
Definition next_pass (st : Loop) : Loop :=
  {| retry := retry st; urlstr := urlstr st; passes := S (passes st);
     events := events st |}.

(** Which [continue] statement was taken. *)
Inductive Branch := Backoff | ServerError.

(** How a pass through the loop body ends. *)
Inductive Control :=
| CReturn (e : Go.error)           (* return a non-nil error *)
| CFatal (msg : string)            (* log.Fatal *)
| CContinue (b : Branch)
| CBreak.

(** Lines 117-133: the redirect check, then the [status/500 == 5] check.
    Go's [/] on [int] truncates toward zero: [Z.quot]. *)
Definition redirect_and_5xx (st : Loop) (r : Response) : Control * Loop :=
  let redirected :=
    if StatusCode r ÷ 100 =? 3 then
      match Location r with
      | None => inl ("resolving redirect: " +:+ urlstr st)
      | Some nurl => inr (set_urlstr st nurl)
      end
    else inr st in
  match redirected with
  | inl e => (CReturn e, st)
  | inr st =>
      if StatusCode r ÷ 500 =? 5 then
        if retry st =? maxRetry then (CFatal "max retries exceeded", st)
        else (CContinue ServerError, set_retry st (retry st + 1))
      else (CBreak, st)
  end.

(** One pass through the body of the [for] loop of [savePage]. *)
Definition body (env : Env) (st : Loop) : Control * Loop :=
  let k := passes st in
  let st := next_pass st in
  match attempt env k (urlstr st) with
  | NewRequestErr e => (CReturn e, st)
  | DoErr e => (CReturn e, log_event st (Get (urlstr st)))
  | ReadAllErr e =>
      (CReturn ("reading response body: " +:+ e),
       log_event st (Get (urlstr st)))
  | Responded r =>
      let st := log_event st (Get (urlstr st)) in
      if 400 <=? StatusCode r then
        if StatusCode r =? 404 then
          (CReturn ("resource not found: " +:+ urlstr st), st)
        else if (StatusCode r =? 429) || (StatusCode r =? 503) then
          let n := (Go.Atoi (RetryAfter r)).1 in
          if 0 <? n then
            let t := Go.Unix n in
            let d := Go.wrap64
                       (Go.Sub t (Go.at_nano (Now env k)) + 1 * Go.Minute) in
            let st := log_event st (Sleep d) in
            (CContinue Backoff, set_retry st (retry st + 1))
          else redirect_and_5xx st r
        else redirect_and_5xx st r
      else redirect_and_5xx st r
  end.

(** What [savePage] gives its caller: [nil], an error, or no return at all
    because [log.Fatal] ended the process. *)
Inductive Saved :=
| SavedNil
| SavedErr (e : Go.error)
| SavedFatal (msg : string).

(** [for retry < maxRetry { ... }; return nil].  The recursion is bounded by
    [fuel]; [None] means the bound was too small. *)
Fixpoint loop (fuel : nat) (env : Env) (st : Loop) : option (Saved * Loop) :=
  if retry st <? maxRetry then
    match fuel with
    | O => None
    | S fuel =>
        match body env st with
        | (CReturn e, st) => Some (SavedErr e, st)
        | (CFatal msg, st) => Some (SavedFatal msg, st)
        | (CContinue _, st) => loop fuel env st
        | (CBreak, st) => Some (SavedNil, st)
        end
    end
  else Some (SavedNil, st).

Definition start (u : string) : Loop :=
  {| retry := 0; urlstr := u; passes := 0; events := [] |}.

Definition savePage (env : Env) (u : string) : option (Saved * Loop) :=
  loop (Z.to_nat maxRetry) env (start u).

(** ** The command line driver *)

(** What a run of the process leaves behind: its exit code, what it wrote
    to standard output and to standard error (one element per write), the
    backing file ([None]: no such file) and the network events. *)
Record Proc := {
  exit_code : Z;
  stdout : string;
  stderr : list string;
  disk : option string;
  net : list Event
}.

Definition newline : string := String Go.nl EmptyString.

(** A line written by package log: the prefix set in [main], the message,
    and a newline unless the message already ends with one. *)
Definition log_line (msg : string) : string :=
  "bookmark: " +:+ msg +:+
  (if Go.is_empty msg || bool_decide (Go.TrimSuffix msg = msg)
   then newline else EmptyString).

(** [log.Fatal] and [log.Fatalf]: a line on standard error, exit code 1. *)
Definition Fatal (msg : string) (d : option string) (ev : list Event) : Proc :=
  {| exit_code := 1; stdout := EmptyString; stderr := [log_line msg];
     disk := d; net := ev |}.

(** The text of [flag.PrintDefaults()] for the one flag declared. *)
Definition PrintDefaults : string :=
  "  -list" +:+ newline +:+
  "    " +:+ String "009"%char "list bookmarks" +:+ newline.

Definition usage_line : string :=
  "usage: bookmark [-list] [url...]" +:+ newline.

(** [usage], after [before] was written to standard error. *)
Definition usage (before : list string) (d : option string) : Proc :=
  {| exit_code := 2; stdout := EmptyString;
     stderr := before ++ [usage_line; PrintDefaults];
     disk := d; net := [] |}.

Definition ReadFile (env : Env) (d : option string) : ReadResult :=
  match read_err env with
  | Some e => ReadFail e
  | None => match d with
            | None => ReadNotExist
            | Some content => ReadOK content
            end
  end.

(** [add]; [None] only if the bound of [savePage] were too small. *)
Definition add (env : Env) (db : BookmarkDB) (d : option string)
    (arg : string) : option Proc :=
  match Parse env arg with
  | None => Some (Fatal ("parsing URL: " +:+ arg) d [])
  | Some u =>
      if decide (is_Some (bookmarks db !! u))
      then Some (Fatal ("duplicate: " +:+ u) d [])
      else
        match savePage env u with
        | None => None
        | Some (SavedFatal msg, st) => Some (Fatal msg d (events st))
        | Some (SavedErr e, st) => Some (Fatal e d (events st))
        | Some (SavedNil, st) =>
            match open_err env with
            | Some e => Some (Fatal ("opening bookmark db: " +:+ e) d (events st))
            | None =>
                (* O_CREATE|O_RDWR|O_APPEND *)
                let old := default EmptyString d in
                let bytes := u +:+ newline in
                match write_err env with
                | Some (n, e) =>
                    Some (Fatal ("adding bookmark: " +:+ e)
                            (Some (old +:+ String.substring 0 n bytes))
                            (events st))
                | None =>
                    let d := Some (old +:+ bytes) in
                    match close_err env with
                    | Some e =>
                        Some (Fatal ("adding bookmark: " +:+ e) d (events st))
                    | None =>
                        Some {| exit_code := 0; stdout := EmptyString;
                                stderr := []; disk := d; net := events st |}
                    end
                end
            end
        end
  end.

(** [main], from the point where [flag.Parse()] has returned: [flagList] is
    the value of [-list] and [args] are the positional arguments. *)
Definition main (env : Env) (flagList : bool) (args : list string)
    (d : option string) : option Proc :=
  match readBookmarkDB (bookmarkDB env) (ReadFile env d) with
  | inl e => Some (Fatal e d [])
  | inr db =>
      if flagList then
        if (0 <? length args)%nat then Some (usage [] d)
        else Some {| exit_code := 0;
                     stdout := list_bookmarks (range_order env) db;
                     stderr := []; disk := d; net := [] |}
      else
        if (1 <? length args)%nat
        then Some (usage ["too many arguments" +:+ newline] d)
        else add env db d (nth 0 args EmptyString)
  end.

(** ** Vocabulary of the specification *)

(** The string contains a newline. *)
Fixpoint has_nl (s : string) : bool :=
  match s with
  | EmptyString => false
  | String c s' => bool_decide (c = Go.nl) || has_nl s'
  end.

(** [l] is a line of [content]: a stretch without newline that starts at
    the beginning of [content] or just after a newline, and stops at the
    end of [content] or just before a newline. *)
Definition is_line (content l : string) : Prop :=
  has_nl l = false ∧
  ∃ pre post, content = pre +:+ l +:+ post ∧
    (pre = EmptyString ∨ ∃ p, pre = p +:+ newline) ∧
    (post = EmptyString ∨ ∃ q, post = String Go.nl q).

(** The two ways of being a line: the first line, and a line that
    follows a newline. *)
Definition first_line (content l : string) : Prop :=
  has_nl l = false ∧
  ∃ post, content = l +:+ post ∧
    (post = EmptyString ∨ ∃ q, post = String Go.nl q).

Definition later_line (content l : string) : Prop :=
  has_nl l = false ∧
  ∃ p post, content = p +:+ String Go.nl (l +:+ post) ∧
    (post = EmptyString ∨ ∃ q, post = String Go.nl q).

(** The values that [f] takes in the loop of [readBookmarkDB]. *)
Definition fields (content : string) : list string :=
  Go.TrimSuffix <$> Go.SplitAfter content.



(** A URL that can be kept on a line of its own: not empty and without
    newline. *)
Definition storable (u : string) : Prop :=
  u ≠ EmptyString ∧ has_nl u = false.


(** The string is made of decimal digits only. *)
Fixpoint all_digits (s : string) : bool :=
  match s with
  | EmptyString => true
  | String c s' =>
      match Go.digit c with
      | Some _ => all_digits s'
      | None => false
      end
  end.

(** The number of decimal digits at the head of the string. *)
Fixpoint leading_digits (s : string) : nat :=
  match s with
  | EmptyString => 0
  | String c s' =>
      match Go.digit c with
      | Some _ => S (leading_digits s')
      | None => 0
      end
  end.

(** The string without its leading sign, if it has one. *)
Definition unsigned_part (s : string) : string := (Go.strip_sign s).2.

(** The URLs requested, in order, among the events of a run. *)
Definition requests (evs : list Event) : list string :=
  omap (λ ev, match ev with Get v => Some v | Sleep _ => None end) evs.

(** The backing file is absent, empty, or ends with a newline. *)
Definition terminated (d : option string) : Prop :=
  match d with
  | None => True
  | Some c => c = EmptyString ∨ ∃ c', c = c' +:+ newline
  end.

(** ** Sample worlds

    Concrete inputs on which the definitions above are run. *)

(** A world with the given network, an identity URL normaliser, a clock
    standing at [now] and no I/O failure. *)
Definition world (respond : nat → string → Attempt) (now : Z) : Env :=
  {| bookmarkDB := "/home/user/.bookmark"; Parse := Some;
     attempt := respond; Now := λ _, now; range_order := reverse;
     read_err := None; open_err := None; write_err := None;
     close_err := None |}.

Definition status (s : Z) : Response :=
  {| StatusCode := s; RetryAfter := EmptyString; Location := None |}.

Definition always (r : Response) : nat → string → Attempt :=
  λ _ _, Responded r.

(** A clock reading: 1700000000 seconds after the epoch. *)
Definition noon : Z := 1700000000 * Go.Second.

(** A server that answers 429 every time, with a [Retry-After] header that
    names the second after [noon]. *)
Definition busy : Response :=
  {| StatusCode := 429; RetryAfter := "1700000001"; Location := None |}.




(** A client that cannot send anything. *)
Definition offline (k : nat) (u : string) : Attempt :=
  DoErr "unsupported protocol scheme".

(** A world in which the backing file exists but cannot be read. *)
Definition unreadable : Env :=
  {| bookmarkDB := "/home/user/.bookmark"; Parse := Some;
     attempt := always (status 200); Now := λ _, 0; range_order := reverse;
     read_err := Some "permission denied"; open_err := None;
     write_err := None; close_err := None |}.

(** ** Tactics *)

(** Case analysis on every test made by the loop body, in hypothesis
    [H]. *)
Ltac body_cases H :=
  unfold body, redirect_and_5xx in H; repeat case_match; simplify_eq/=.

(** Boolean comparisons on [Z] in the hypotheses, as propositions. *)
Ltac eqb_to_eq :=
  repeat match goal with
    | H : (_ =? _) = true |- _ => apply Z.eqb_eq in H
    | H : (_ <? _) = true |- _ => apply Z.ltb_lt in H
    | H : (_ <? _) = false |- _ => apply Z.ltb_ge in H
    end.

(** * Properties *)

(** ** Integer division on status codes *)

Lemma quot_100_3 (s : Z) : s ÷ 100 = 3 ↔ 300 ≤ s ≤ 399.
Proof. split; intros; Z.to_euclidean_division_equations; lia. Qed.

Lemma quot_500_5 (s : Z) : s ÷ 500 = 5 ↔ 2500 ≤ s ≤ 2999.
Proof. split; intros; Z.to_euclidean_division_equations; lia. Qed.

Lemma quot_500_5_false (s : Z) : s < 2500 → (s ÷ 500 =? 5) = false.
Proof. intros. apply Z.eqb_neq. rewrite quot_500_5. lia. Qed.

Lemma quot_100_3_false (s : Z) : ¬ (300 ≤ s ≤ 399) → (s ÷ 100 =? 3) = false.
Proof. intros. apply Z.eqb_neq. rewrite quot_100_3. lia. Qed.


(** ** The loop body *)

(** The redirect and 5xx checks on a status below 2500: the loop is left,
    with an error when a redirect cannot be resolved. *)
Lemma redirect_and_5xx_low (st : Loop) (r : Response) :
  StatusCode r < 2500 →
  redirect_and_5xx st r =
    if StatusCode r ÷ 100 =? 3 then
      match Location r with
      | None => (CReturn ("resolving redirect: " +:+ urlstr st), st)
      | Some nurl => (CBreak, set_urlstr st nurl)
      end
    else (CBreak, st).
Proof.
  intros Hs. unfold redirect_and_5xx.
  rewrite (quot_500_5_false _ Hs).
  destruct (StatusCode r ÷ 100 =? 3); [destruct (Location r)|]; reflexivity.
Qed.

(** Both [continue] statements come after [retry++], leave [urlstr] alone
    and count as one pass. *)
Lemma body_continue (env : Env) (st st' : Loop) (b : Branch) :
  body env st = (CContinue b, st') →
  retry st' = retry st + 1 ∧ urlstr st' = urlstr st ∧
  passes st' = S (passes st).
Proof.
  intros H. body_cases H; try done.
  all: eqb_to_eq.
  all: repeat match goal with
         | H : _ ÷ 100 = 3 |- _ => apply quot_100_3 in H
         | H : _ ÷ 500 = 5 |- _ => apply quot_500_5 in H
         end; lia.
Qed.

(** Every pass counts. *)
Lemma body_passes (env : Env) (st : Loop) :
  passes (body env st).2 = S (passes st).
Proof.
  unfold body, redirect_and_5xx. repeat case_match; simplify_eq/=; done.
Qed.

(** ** Termination of the loop *)

(** One turn of the loop. *)
Lemma loop_S (fuel : nat) (env : Env) (st : Loop) :
  loop (S fuel) env st =
    if retry st <? maxRetry then
      match body env st with
      | (CReturn e, st) => Some (SavedErr e, st)
      | (CFatal msg, st) => Some (SavedFatal msg, st)
      | (CContinue _, st) => loop fuel env st
      | (CBreak, st) => Some (SavedNil, st)
      end
    else Some (SavedNil, st).
Proof. reflexivity. Qed.

Lemma loop_enough (fuel : nat) (env : Env) (st : Loop) :
  (Z.to_nat (maxRetry - retry st) ≤ fuel)%nat →
  is_Some (loop fuel env st).
Proof.
  revert st. induction fuel as [|fuel IH]; intros st Hfuel; simpl.
  - destruct (Z.ltb_spec (retry st) maxRetry); [lia | eauto].
  - destruct (Z.ltb_spec (retry st) maxRetry); [| eauto].
    destruct (body env st) as [c st'] eqn:Hb.
    destruct c; eauto.
    apply IH. apply body_continue in Hb as (-> & _ & _). lia.
Qed.

Lemma loop_more (fuel : nat) (env : Env) (st : Loop) (res : Saved * Loop) :
  loop fuel env st = Some res → loop (S fuel) env st = Some res.
Proof.
  revert st. induction fuel as [|fuel IH]; intros st.
  - simpl. destruct (retry st <? maxRetry); [done|].
    by intros [= <-].
  - intros H. simpl in H. change (loop (S (S fuel)) env st) with
      (if retry st <? maxRetry then
         match body env st with
         | (CReturn e, st) => Some (SavedErr e, st)
         | (CFatal msg, st) => Some (SavedFatal msg, st)
         | (CContinue _, st) => loop (S fuel) env st
         | (CBreak, st) => Some (SavedNil, st)
         end
       else Some (SavedNil, st)).
    destruct (retry st <? maxRetry); [|done].
    destruct (body env st) as [[]]; auto.
Qed.

Lemma savePage_total (env : Env) (u : string) : is_Some (savePage env u).
Proof. apply loop_enough. simpl. lia. Qed.

(** ** Runs of the loop *)

(** A pass that meets a 404 returns at once. *)
Lemma body_404 (env : Env) (st : Loop) (r : Response) :
  attempt env (passes st) (urlstr st) = Responded r →
  StatusCode r = 404 →
  body env st =
    (CReturn ("resource not found: " +:+ urlstr st),
     log_event (next_pass st) (Get (urlstr st))).
Proof. unfold body. simpl. intros -> ->. reflexivity. Qed.

(** The loop never reaches [log.Fatal]: inside the loop [retry] is below
    [maxRetry], and the call sits under [retry == maxRetry]. *)
Lemma loop_never_fatal (fuel : nat) (env : Env) (st st' : Loop) (msg : string) :
  loop fuel env st ≠ Some (SavedFatal msg, st').
Proof.
  revert st. induction fuel as [|fuel IH]; intros st; simpl.
  - destruct (retry st <? maxRetry); congruence.
  - destruct (Z.ltb_spec (retry st) maxRetry); [|congruence].
    destruct (body env st) as [c st1] eqn:Hb.
    destruct c; [congruence| |apply IH|congruence].
    exfalso. body_cases Hb; eqb_to_eq; lia.
Qed.

(** One call of [savePage] makes at most [maxRetry] passes, and [retry]
    stays within the budget. *)
Lemma loop_bounds (fuel : nat) (env : Env) (st st' : Loop) (res : Saved) :
  loop fuel env st = Some (res, st') →
  retry st ≤ maxRetry →
  retry st ≤ retry st' ≤ maxRetry ∧
  (passes st ≤ passes st')%nat ∧
  Z.of_nat (passes st') - Z.of_nat (passes st) ≤ maxRetry - retry st.
Proof.
  revert st. induction fuel as [|fuel IH]; intros st; simpl.
  - destruct (Z.ltb_spec (retry st) maxRetry); [done|].
    intros [= <- <-]. lia.
  - destruct (Z.ltb_spec (retry st) maxRetry); [|intros [= <- <-]; lia].
    destruct (body env st) as [c st1] eqn:Hb.
    pose proof (body_passes env st) as Hp. rewrite Hb in Hp. simpl in Hp.
    assert (retry st ≤ retry st1 ≤ retry st + 1) as Hr.
    { body_cases Hb; lia. }
    destruct c; try (intros [= <- <-]; lia).
    intros Hl _. apply body_continue in Hb as (Hr1 & _ & _).
    apply IH in Hl; lia.
Qed.

(** One call of [savePage] sends at most three requests. *)
Lemma savePage_passes (env : Env) (u : string) (res : Saved) (st : Loop) :
  savePage env u = Some (res, st) → (passes st ≤ 3)%nat ∧ retry st ≤ 3.
Proof.
  intros H. apply loop_bounds in H; simpl in *; unfold maxRetry in *; lia.
Qed.

(** A 404 at any pass of a run ends the run there, with the error. *)
Lemma loop_404 (fuel : nat) (env : Env) (st st' : Loop) (res : Saved)
    (k : nat) (r : Response) :
  loop fuel env st = Some (res, st') →
  (passes st ≤ k < passes st')%nat →
  attempt env k (urlstr st) = Responded r →
  StatusCode r = 404 →
  res = SavedErr ("resource not found: " +:+ urlstr st) ∧
  passes st' = S k.
Proof.
  revert st. induction fuel as [|fuel IH]; intros st; simpl.
  - destruct (retry st <? maxRetry); [done|]. intros [= <- <-]. lia.
  - destruct (retry st <? maxRetry); [|intros [= <- <-]; lia].
    intros Hl Hk Ha Hs.
    destruct (decide (k = passes st)) as [->|Hne].
    + rewrite (body_404 env st r Ha Hs) in Hl. by simplify_eq/=.
    + destruct (body env st) as [c st1] eqn:Hb.
      pose proof (body_passes env st) as Hp. rewrite Hb in Hp. simpl in Hp.
      destruct c; try (simplify_eq/=; lia).
      apply body_continue in Hb as (Hr & Hu & _).
      rewrite <- Hu in Ha.
      destruct (IH st1 Hl) as (-> & ->); [lia|done|done|].
      by rewrite Hu.
Qed.

(** ** [add] up to the fetch *)

Lemma add_duplicate (env : Env) (db : BookmarkDB) (d : option string)
    (arg u : string) :
  Parse env arg = Some u →
  is_Some (bookmarks db !! u) →
  add env db d arg = Some (Fatal ("duplicate: " +:+ u) d []).
Proof. unfold add. intros -> ?. by rewrite decide_True. Qed.

Lemma add_fetch_error (env : Env) (db : BookmarkDB) (d : option string)
    (arg u : string) (e : Go.error) (st : Loop) :
  Parse env arg = Some u →
  bookmarks db !! u = None →
  savePage env u = Some (SavedErr e, st) →
  add env db d arg = Some (Fatal e d (events st)).
Proof.
  unfold add. intros -> Hnew ->. rewrite decide_False; [done|].
  rewrite Hnew. by intros [? ?].
Qed.

(** ** Status 500 and the retry budget *)

(** A pass that meets a status 500 leaves the loop by [break]: 500/500 is
    1, not 5. *)
Lemma body_500 (env : Env) (st : Loop) (r : Response) :
  attempt env (passes st) (urlstr st) = Responded r →
  StatusCode r = 500 →
  body env st = (CBreak, log_event (next_pass st) (Get (urlstr st))).
Proof.
  unfold body. simpl. intros -> Hs. rewrite Hs. simpl.
  rewrite redirect_and_5xx_low by lia. by rewrite Hs.
Qed.

(** C1 (evaluation of the code on a status 500).  A server that answers
    500 to the first request: [savePage] returns nil after that single
    request, [retry] is still 0, and [bookmark URL] exits with code 0 with
    the URL appended to the file.  Nothing is retried and the process does
    not end with "max retries exceeded". *)
Theorem savePage_500_returns_nil :
  savePage (world (always (status 500)) 0) "http://example.com/" =
    Some (SavedNil,
          {| retry := 0; urlstr := "http://example.com/"; passes := 1;
             events := [Get "http://example.com/"] |}) ∧
  main (world (always (status 500)) 0) false ["http://example.com/"] None =
    Some {| exit_code := 0; stdout := EmptyString; stderr := [];
            disk := Some ("http://example.com/" +:+ newline);
            net := [Get "http://example.com/"] |}.
Proof. split; vm_compute; reflexivity. Qed.

(** C2 (evaluation of the code on a server that keeps asking to back
    off).  Every request is answered 429 with a [Retry-After] one second
    ahead of the clock: [savePage] makes three requests in all, sleeps 61
    seconds after each of them, and then returns nil; [bookmark URL] exits
    with code 0 with the URL appended.  There is no fourth request and no
    fatal exit. *)
Theorem savePage_backoff_exhausted_returns_nil :
  savePage (world (always busy) noon) "http://example.com/" =
    Some (SavedNil,
          {| retry := 3; urlstr := "http://example.com/"; passes := 3;
             events := [Get "http://example.com/"; Sleep 61000000000;
                        Get "http://example.com/"; Sleep 61000000000;
                        Get "http://example.com/"; Sleep 61000000000] |}) ∧
  ∃ p, main (world (always busy) noon) false ["http://example.com/"] None =
         Some p ∧
       exit_code p = 0 ∧ stderr p = [] ∧
       disk p = Some ("http://example.com/" +:+ newline).
Proof.
  split; [vm_compute; reflexivity|].
  eexists. split; [vm_compute; reflexivity|]. done.
Qed.

(** C3.  On a status code between 100 and 599 the test
    [StatusCode/500 == 5] is false, so a pass of the loop that receives
    such a response takes neither the [retry++; continue] of the 5xx
    branch nor its [log.Fatal]. *)
Theorem status_500_branch_unreachable (env : Env) (st : Loop) (r : Response) :
  attempt env (passes st) (urlstr st) = Responded r →
  100 ≤ StatusCode r ≤ 599 →
  (StatusCode r ÷ 500 =? 5) = false ∧
  (body env st).1 ≠ CContinue ServerError ∧
  (∀ msg, (body env st).1 ≠ CFatal msg).
Proof.
  intros Ha Hs.
  assert ((StatusCode r ÷ 500 =? 5) = false) as H5
    by (apply quot_500_5_false; lia).
  split; [done|].
  unfold body. simpl. rewrite Ha.
  set (st1 := log_event (next_pass st) (Get (urlstr st))).
  pose proof (redirect_and_5xx_low st1 r ltac:(lia)) as Hlow.
  assert ((redirect_and_5xx st1 r).1 ≠ CContinue ServerError ∧
          ∀ msg, (redirect_and_5xx st1 r).1 ≠ CFatal msg) as [??].
  { rewrite Hlow. repeat case_match; simpl; split; congruence. }
  repeat case_match; simpl; split; congruence.
Qed.

Lemma status_500_branch_unreachable_witness :
  let env := world (always (status 503)) 0 in
  let st := start "http://example.com/" in
  (StatusCode (status 503) ÷ 500 =? 5) = false ∧
  (body env st).1 ≠ CContinue ServerError ∧
  (∀ msg, (body env st).1 ≠ CFatal msg).
Proof.
  apply (status_500_branch_unreachable
           (world (always (status 503)) 0) (start "http://example.com/")
           (status 503)).
  - reflexivity.
  - simpl. lia.
Defined.

(** ** Redirects *)




(** ** Backing off on 429 and 503 *)

Lemma wrap64_id (x : Z) : - 2 ^ 63 ≤ x < 2 ^ 63 → Go.wrap64 x = x.
Proof. intros H. unfold Go.wrap64. rewrite Z.mod_small; lia. Qed.

(** Adding a positive number of seconds to the offset can only wrap
    downwards. *)
Lemma wrap64_le (x : Z) : 0 ≤ x → Go.wrap64 x ≤ x.
Proof.
  intros H. unfold Go.wrap64.
  pose proof (Z.mod_le (x + 2 ^ 63) (2 ^ 64)). lia.
Qed.

Lemma Sub_bounds (t u : Go.Time) :
  Go.minDuration ≤ Go.Sub t u ≤ Go.maxDuration.
Proof.
  unfold Go.Sub, Go.minDuration, Go.maxDuration.
  repeat case_match; eqb_to_eq; lia.
Qed.


(** The difference between a positive Unix time and a clock reading at
    least a minute later is at most minus one minute, also when
    [time.Unix] wraps or [Sub] saturates. *)
Lemma Sub_Unix_past (n x : Z) :
  0 < n → n * Go.Second + Go.Minute ≤ x →
  Go.Sub (Go.Unix n) (Go.at_nano x) ≤ - Go.Minute.
Proof.
  intros Hn Hx. unfold Go.Sub, Go.Unix, Go.at_nano. simpl.
  assert (Go.wrap64 (n + Go.unixToInternal) ≤ n + Go.unixToInternal) as Hw.
  { apply wrap64_le. unfold Go.unixToInternal. lia. }
  pose proof (Z.div_mod x Go.Second ltac:(done)) as Hdm.
  pose proof (Z.mod_pos_bound x Go.Second ltac:(done)) as Hmod.
  set (w := Go.wrap64 (n + Go.unixToInternal)) in *.
  set (q := x / Go.Second) in *. set (m := x mod Go.Second) in *.
  clearbody w q m.
  unfold Go.unixToInternal, Go.Minute, Go.Second, Go.minDuration,
    Go.maxDuration in *.
  repeat case_match; eqb_to_eq; lia.
Qed.




(** ** Not found *)

(** C7.  [add] is called on an argument whose normalised form [u] is not
    in the store, and the [k]-th pass of the fetch would be answered 404.
    [savePage] returns; if its run reaches pass [k], it returns the error
    "resource not found" from that pass, which is its last one, and [add]
    ends the process with that message and exit code 1, the backing file
    being what it was. *)
Theorem not_found_fails_without_writing (env : Env) (db : BookmarkDB)
    (d : option string) (arg u : string) (k : nat) (r : Response) :
  Parse env arg = Some u →
  bookmarks db !! u = None →
  attempt env k u = Responded r →
  StatusCode r = 404 →
  ∃ res st,
    savePage env u = Some (res, st) ∧
    ((k < passes st)%nat →
     res = SavedErr ("resource not found: " +:+ u) ∧
     passes st = S k ∧
     ∃ p, add env db d arg = Some p ∧
          exit_code p = 1 ∧
          stderr p = [log_line ("resource not found: " +:+ u)] ∧
          disk p = d).
Proof.
  intros Hparse Hnew Ha Hs.
  destruct (savePage_total env u) as [[res st] Hrun].
  exists res, st. split; [done|]. intros Hk.
  destruct (loop_404 _ _ _ _ _ k r Hrun) as [-> ->]; [simpl; lia|done..|].
  split_and!; [done..|].
  eexists. split; [by eapply add_fetch_error|done].
Qed.

Lemma not_found_fails_without_writing_witness :
  ∃ p, add (world (always (status 404)) 0)
         {| file := "/home/user/.bookmark"; data := EmptyString;
            bookmarks := ∅ |}
         (Some "http://old.example/") "http://example.com/" = Some p ∧
       exit_code p = 1 ∧
       stderr p =
         [log_line ("resource not found: " +:+ "http://example.com/")] ∧
       disk p = Some "http://old.example/".
Proof.
  destruct (not_found_fails_without_writing
              (world (always (status 404)) 0)
              {| file := "/home/user/.bookmark"; data := EmptyString;
                 bookmarks := ∅ |}
              (Some "http://old.example/")
              "http://example.com/" "http://example.com/" 0 (status 404)
              eq_refl (lookup_empty _) eq_refl eq_refl)
    as (res & st & Hrun & Hk).
  assert (passes st = 1%nat) as Hp.
  { vm_compute in Hrun. by injection Hrun as _ <-. }
  destruct Hk as (_ & _ & p & ? & ? & ? & ?); [lia|].
  by exists p.
Defined.

(** ** Duplicates *)

(** C8.  The store was loaded from the backing file and already has the
    normalised form [u] of the argument as a key.  [bookmark arg] ends
    with the message "duplicate" and exit code 1; no request was sent and
    the backing file is what it was. *)
Theorem duplicate_fails_before_fetch (env : Env) (d : option string)
    (db : BookmarkDB) (arg u : string) :
  readBookmarkDB (bookmarkDB env) (ReadFile env d) = inr db →
  Parse env arg = Some u →
  u ∈ dom (bookmarks db) →
  add env db d arg = Some (Fatal ("duplicate: " +:+ u) d []) ∧
  main env false [arg] d = Some (Fatal ("duplicate: " +:+ u) d []) ∧
  exit_code (Fatal ("duplicate: " +:+ u) d []) = 1 ∧
  net (Fatal ("duplicate: " +:+ u) d []) = [] ∧
  disk (Fatal ("duplicate: " +:+ u) d []) = d.
Proof.
  intros Hload Hparse Hdup. apply elem_of_dom in Hdup.
  pose proof (add_duplicate env db d arg u Hparse Hdup) as Hadd.
  split_and!; [done| |done..].
  unfold main. by rewrite Hload.
Qed.

Lemma duplicate_fails_before_fetch_witness :
  main (world (always (status 200)) 0) false ["http://example.com/"]
    (Some ("http://example.com/" +:+ newline)) =
  Some (Fatal ("duplicate: " +:+ "http://example.com/")
          (Some ("http://example.com/" +:+ newline)) []).
Proof.
  refine (proj1 (proj2 (duplicate_fails_before_fetch
            (world (always (status 200)) 0)
            (Some ("http://example.com/" +:+ newline))
            _ "http://example.com/" "http://example.com/"
            eq_refl eq_refl _))).
  vm_compute. reflexivity.
Defined.

(** ** The command line *)

(** [add] ends with exit code 0 or 1, never with the usage exit. *)
Lemma add_exit_code (env : Env) (db : BookmarkDB) (d : option string)
    (arg : string) (p : Proc) :
  add env db d arg = Some p → exit_code p = 0 ∨ exit_code p = 1.
Proof.
  unfold add. intros H.
  repeat case_match; simplify_eq/=; auto.
Qed.

Lemma add_total (env : Env) (db : BookmarkDB) (d : option string)
    (arg : string) :
  is_Some (add env db d arg).
Proof.
  unfold add. destruct (savePage_total env (default arg (Parse env arg)))
    as [[res st] Hrun].
  destruct (Parse env arg) as [u|]; [|eauto]. simpl in Hrun.
  rewrite Hrun. repeat case_match; eauto.
Qed.

Lemma main_total (env : Env) (flagList : bool) (args : list string)
    (d : option string) :
  is_Some (main env flagList args d).
Proof.
  unfold main. repeat case_match; eauto using add_total.
Qed.

(** C6, as stated, fails.  With no flag and no argument the program does
    not print the usage message: it goes on to [add] with the empty string
    and here dies in the fetch, with exit code 1.  And when the backing
    file cannot be read the program dies with exit code 1 before it looks
    at its arguments, here two of them. *)
Lemma usage_not_for_every_other_shape :
  (∃ p, main (world offline 0) false [] None = Some p ∧
        exit_code p = 1 ∧
        stderr p = [log_line "unsupported protocol scheme"] ∧
        net p = [Get EmptyString]) ∧
  (∃ p, main unreadable false ["http://a/"; "http://b/"]
          (Some EmptyString) = Some p ∧
        exit_code p = 1 ∧
        stderr p = [log_line "permission denied"]).
Proof.
  split; (eexists; split; [vm_compute; reflexivity|done]).
Qed.

(** What [add] writes to standard error is a line of package log, never
    the usage message. *)
Lemma add_stderr (env : Env) (db : BookmarkDB) (d : option string)
    (arg : string) (p : Proc) :
  add env db d arg = Some p → usage_line ∉ stderr p.
Proof.
  unfold add. intros H.
  repeat case_match; simplify_eq/=;
    try (by intros ?%elem_of_nil);
    by intros [=]%list_elem_of_singleton.
Qed.

(** C6, amended.  When the backing file exists but cannot be read, the
    process ends with a fatal message and exit code 1 whatever its
    arguments.  Otherwise: [-list] without arguments lists the store and
    exits with code 0; [-list] with arguments prints the usage message and
    exits with code 2; without the flag, two or more arguments print "too
    many arguments" and the usage message and exit with code 2; one
    argument is added; and no argument at all runs [add] on the empty
    string.  [add] never prints the usage message nor exits with code 2. *)
Theorem command_line_shapes (env : Env) (flagList : bool)
    (args : list string) (d : option string) :
  (∀ e, read_err env = Some e →
     main env flagList args d = Some (Fatal e d [])) ∧
  (read_err env = None →
   ∃ db, readBookmarkDB (bookmarkDB env) (ReadFile env d) = inr db ∧
     main env flagList args d =
       match flagList, args with
       | true, [] =>
           Some {| exit_code := 0;
                   stdout := list_bookmarks (range_order env) db;
                   stderr := []; disk := d; net := [] |}
       | true, _ :: _ => Some (usage [] d)
       | false, [] => add env db d EmptyString
       | false, [arg] => add env db d arg
       | false, _ :: _ :: _ =>
           Some (usage ["too many arguments" +:+ newline] d)
       end ∧
     (∀ arg, ∃ p, add env db d arg = Some p ∧
        (exit_code p = 0 ∨ exit_code p = 1) ∧ usage_line ∉ stderr p)) ∧
  (∀ before, exit_code (usage before d) = 2 ∧
     usage_line ∈ stderr (usage before d)).
Proof.
  split_and!.
  - intros e He. unfold main, ReadFile. by rewrite He.
  - intros Hread.
    assert (∃ db, readBookmarkDB (bookmarkDB env) (ReadFile env d) = inr db)
      as [db Hload].
    { unfold ReadFile. rewrite Hread. destruct d; simpl; eauto. }
    exists db. split_and!; [done| |].
    + unfold main. rewrite Hload.
      destruct flagList, args as [|a [|b args]]; reflexivity.
    + intros arg. destruct (add_total env db d arg) as [p Hp].
      exists p. eauto using add_exit_code, add_stderr.
  - intros before. split; [done|].
    unfold usage. simpl. apply elem_of_app. right. left.
Qed.

Lemma command_line_shapes_witness :
  main (world (always (status 200)) 0) true ["http://a/"] None =
    Some (usage [] None) ∧
  main (world (always (status 200)) 0) false [] None =
    add (world (always (status 200)) 0)
      {| file := "/home/user/.bookmark"; data := EmptyString;
         bookmarks := ∅ |} None EmptyString.
Proof.
  split.
  - destruct (proj1 (proj2 (command_line_shapes
                 (world (always (status 200)) 0) true ["http://a/"] None))
                eq_refl) as (db & Hload & Hmain & _).
    exact Hmain.
  - destruct (proj1 (proj2 (command_line_shapes
                 (world (always (status 200)) 0) false [] None))
                eq_refl) as (db & Hload & Hmain & _).
    injection Hload as <-. exact Hmain.
Defined.

(** ** Strings *)

Lemma sapp_nil_l (s : string) : EmptyString +:+ s = s.
Proof. reflexivity. Qed.

Lemma sapp_cons (c : ascii) (s t : string) :
  String c s +:+ t = String c (s +:+ t).
Proof. reflexivity. Qed.

Lemma sapp_nil_r (s : string) : s +:+ EmptyString = s.
Proof. induction s as [|c s IH]; [done|]. by rewrite sapp_cons, IH. Qed.

Lemma sapp_assoc (s t u : string) : (s +:+ t) +:+ u = s +:+ t +:+ u.
Proof. induction s as [|c s IH]; [done|]. by rewrite !sapp_cons, IH. Qed.

Lemma sapp_eq_nil (s t : string) :
  s +:+ t = EmptyString → s = EmptyString ∧ t = EmptyString.
Proof. destruct s; [done|]. by rewrite sapp_cons. Qed.

Lemma has_nl_cons (c : ascii) (s : string) :
  has_nl (String c s) = false ↔ c ≠ Go.nl ∧ has_nl s = false.
Proof.
  simpl. rewrite orb_false_iff, bool_decide_eq_false. done.
Qed.

(** ** The pieces of the file *)

Lemma SplitAfter_not_nil (s : string) : Go.SplitAfter s ≠ [].
Proof.
  destruct s as [|c s]; [done|]. simpl.
  case_decide; [done|]. by destruct (Go.SplitAfter s).
Qed.

Lemma TrimSuffix_cons (c : ascii) (s : string) :
  c ≠ Go.nl → Go.TrimSuffix (String c s) = String c (Go.TrimSuffix s).
Proof.
  intros Hc. destruct s as [|c' s]; [|done].
  simpl. by rewrite decide_False.
Qed.

Lemma fields_nil : fields EmptyString = [EmptyString].
Proof. reflexivity. Qed.

Lemma fields_nl (s : string) :
  fields (String Go.nl s) = EmptyString :: fields s.
Proof. reflexivity. Qed.

Lemma fields_other (c : ascii) (s : string) :
  c ≠ Go.nl →
  ∃ hd tl, fields s = hd :: tl ∧ fields (String c s) = String c hd :: tl.
Proof.
  intros Hc. unfold fields. simpl. rewrite decide_False by done.
  destruct (Go.SplitAfter s) as [|l ls] eqn:Hs.
  { by apply SplitAfter_not_nil in Hs. }
  exists (Go.TrimSuffix l), (Go.TrimSuffix <$> ls).
  split; [done|]. rewrite fmap_cons. by rewrite TrimSuffix_cons.
Qed.

(** ** Lines *)

Lemma is_line_cases (content l : string) :
  is_line content l ↔ first_line content l ∨ later_line content l.
Proof.
  unfold is_line, first_line, later_line, newline. split.
  - intros (Hl & pre & post & -> & [-> | [p ->]] & Hpost).
    + left. split; [done|]. by exists post.
    + right. split; [done|]. exists p, post.
      by rewrite sapp_assoc, sapp_cons, sapp_nil_l.
  - intros [(Hl & post & -> & Hpost) | (Hl & p & post & -> & Hpost)].
    + split; [done|]. exists EmptyString, post. auto.
    + split; [done|]. exists (p +:+ String Go.nl EmptyString), post.
      rewrite sapp_assoc, sapp_cons, sapp_nil_l. eauto.
Qed.

Lemma first_line_nil (l : string) :
  first_line EmptyString l ↔ l = EmptyString.
Proof.
  unfold first_line. split.
  - intros (_ & post & Heq & _). symmetry in Heq.
    by apply sapp_eq_nil in Heq as [-> _].
  - intros ->. split; [done|]. exists EmptyString. auto.
Qed.

Lemma later_line_nil (l : string) : ¬ later_line EmptyString l.
Proof. intros (_ & [|c p] & post & Heq & _); discriminate. Qed.

Lemma first_line_nl (s l : string) :
  first_line (String Go.nl s) l ↔ l = EmptyString.
Proof.
  unfold first_line. split.
  - intros (Hl & post & Heq & _). destruct l as [|c l]; [done|].
    rewrite sapp_cons in Heq. injection Heq as <- _.
    apply has_nl_cons in Hl as [? _]. done.
  - intros ->. split; [done|]. exists (String Go.nl s). eauto.
Qed.

Lemma later_line_nl (s l : string) :
  later_line (String Go.nl s) l ↔ first_line s l ∨ later_line s l.
Proof.
  unfold first_line, later_line. split.
  - intros (Hl & [|c p] & post & Heq & Hpost).
    + rewrite sapp_nil_l in Heq. injection Heq as ->. left. eauto.
    + rewrite sapp_cons in Heq. injection Heq as _ ->. right. eauto.
  - intros [(Hl & post & -> & Hpost) | (Hl & p & post & -> & Hpost)].
    + split; [done|]. exists EmptyString, post. eauto.
    + split; [done|]. exists (String Go.nl p), post. eauto.
Qed.

Lemma first_line_other (c : ascii) (s l : string) :
  c ≠ Go.nl →
  first_line (String c s) l ↔ ∃ l', l = String c l' ∧ first_line s l'.
Proof.
  intros Hc. unfold first_line. split.
  - intros (Hl & post & Heq & Hpost). destruct l as [|a l].
    + rewrite sapp_nil_l in Heq. subst post.
      destruct Hpost as [|[q [=]]]; done.
    + rewrite sapp_cons in Heq. injection Heq as <- ->.
      apply has_nl_cons in Hl as [_ Hl]. eauto 6.
  - intros (l' & -> & Hl & post & -> & Hpost). split.
    + by apply has_nl_cons.
    + exists post. eauto.
Qed.

Lemma later_line_other (c : ascii) (s l : string) :
  c ≠ Go.nl →
  later_line (String c s) l ↔ later_line s l.
Proof.
  intros Hc. unfold later_line. split.
  - intros (Hl & [|a p] & post & Heq & Hpost).
    + rewrite sapp_nil_l in Heq. by injection Heq as -> _.
    + rewrite sapp_cons in Heq. injection Heq as _ ->. eauto.
  - intros (Hl & p & post & -> & Hpost).
    split; [done|]. exists (String c p), post. eauto.
Qed.

(** The first field is the first line, and the others are the lines that
    follow a newline. *)
Lemma fields_lines (s : string) :
  ∃ hd tl, fields s = hd :: tl ∧
    (∀ l, first_line s l ↔ l = hd) ∧
    (∀ l, l ∈ tl ↔ later_line s l).
Proof.
  induction s as [|c s (hd & tl & Hf & Hhd & Htl)].
  - exists EmptyString, []. split_and!; [done| |].
    + apply first_line_nil.
    + intros l. rewrite elem_of_nil. pose proof (later_line_nil l). tauto.
  - destruct (decide (c = Go.nl)) as [->|Hc].
    + exists EmptyString, (hd :: tl). rewrite fields_nl, Hf.
      split_and!; [done| |].
      * apply first_line_nl.
      * intros l. rewrite later_line_nl, elem_of_cons, Hhd, Htl. done.
    + destruct (fields_other c s Hc) as (hd' & tl' & Hf' & ->).
      rewrite Hf in Hf'. injection Hf' as <- <-.
      exists (String c hd), tl. split_and!; [done| |].
      * intros l. rewrite first_line_other by done. split.
        -- intros (l' & -> & Hl'). apply Hhd in Hl'. by subst.
        -- intros ->. exists hd. split; [done|]. by apply Hhd.
      * intros l. rewrite later_line_other by done. apply Htl.
Qed.

Lemma elem_of_fields (s l : string) : l ∈ fields s ↔ is_line s l.
Proof.
  destruct (fields_lines s) as (hd & tl & -> & Hhd & Htl).
  rewrite is_line_cases, elem_of_cons, Hhd, Htl. done.
Qed.

(** ** Loading the store *)

Lemma is_empty_true (s : string) : Go.is_empty s = true ↔ s = EmptyString.
Proof. by destruct s. Qed.

Lemma add_line_lookup (m : gmap string Bookmark) (line k : string) :
  add_line m line !! k =
    if decide (k ≠ EmptyString ∧ k = Go.TrimSuffix line)
    then Some {| url := k |} else m !! k.
Proof.
  unfold add_line.
  destruct (Go.is_empty (Go.TrimSuffix line)) eqn:He.
  - apply is_empty_true in He. rewrite He.
    rewrite decide_False; [done|]. intros [? ?]. done.
  - simpl. assert (Go.TrimSuffix line ≠ EmptyString) as Hne.
    { intros Heq. apply is_empty_true in Heq. congruence. }
    destruct (decide (k = Go.TrimSuffix line)) as [->|Hk].
    + rewrite lookup_insert_eq. by rewrite decide_True.
    + rewrite lookup_insert_ne by done.
      rewrite decide_False; [done|]. by intros [_ ?].
Qed.

(** The map after the loop of [readBookmarkDB] over [lines]. *)
Lemma foldl_add_line_lookup (lines : list string)
    (m : gmap string Bookmark) (k : string) :
  foldl add_line m lines !! k =
    if decide (k ≠ EmptyString ∧ k ∈ Go.TrimSuffix <$> lines)
    then Some {| url := k |} else m !! k.
Proof.
  revert m. induction lines as [|line lines IH]; intros m.
  - simpl. rewrite decide_False; [done|].
    intros [_ ?%elem_of_nil]. done.
  - rewrite fmap_cons. simpl. rewrite IH, add_line_lookup.
    destruct (decide (k ≠ EmptyString ∧ k ∈ Go.TrimSuffix <$> lines))
      as [[Hk Hin]|Hn].
    { rewrite decide_True; [done|]. split; [done|].
      apply elem_of_cons. by right. }
    destruct (decide (k ≠ EmptyString ∧ k = Go.TrimSuffix line))
      as [[Hk Heq]|Hn'].
    { rewrite decide_True; [done|]. split; [done|].
      apply elem_of_cons. by left. }
    rewrite decide_False; [done|].
    intros [Hk [Heq|Hin]%elem_of_cons]; [by apply Hn'|by apply Hn].
Qed.

Lemma readBookmarkDB_lookup (path content : string) (k : string) :
  ∃ db, readBookmarkDB path (ReadOK content) = inr db ∧
    file db = path ∧ data db = content ∧
    bookmarks db !! k =
      if decide (k ≠ EmptyString ∧ k ∈ fields content)
      then Some {| url := k |} else None.
Proof.
  eexists. split; [reflexivity|]. simpl. split_and!; [done..|].
  by rewrite foldl_add_line_lookup, lookup_empty.
Qed.

(** ** Sorting *)

(** [sort.Strings] is a function of the strings collected, whatever the
    order in which they were collected. *)
Lemma Strings_Permutation (l1 l2 : list string) :
  l1 ≡ₚ l2 → Go.Strings l1 = Go.Strings l2.
Proof.
  intros Hp. unfold Go.Strings.
  apply (Sorted_unique String.le).
  - apply Sorted_merge_sort, _.
  - apply Sorted_merge_sort, _.
  - by rewrite !merge_sort_Permutation.
Qed.



Lemma list_in_order_Permutation (o1 o2 : list (string * Bookmark)) :
  o1 ≡ₚ o2 → list_in_order o1 = list_in_order o2.
Proof.
  intros Hp. unfold list_in_order. simpl.
  f_equal. apply Strings_Permutation. by rewrite Hp.
Qed.

(** C10.  Reading a backing file that does not exist gives the empty
    store, without error, and [list] on the empty store writes nothing,
    whatever order [range] uses: [bookmark -list] without a backing file
    prints nothing and exits with code 0.  Reading a file that exists gives
    a store whose keys are exactly the non-empty lines of the file, each
    key holding the bookmark of that very text. *)
Theorem load_store (env : Env) :
  (∀ l, range_order env l ≡ₚ l) →
  let empty := {| file := bookmarkDB env; data := EmptyString;
                  bookmarks := ∅ |} in
  readBookmarkDB (bookmarkDB env) ReadNotExist = inr empty ∧
  list_bookmarks (range_order env) empty = EmptyString ∧
  (read_err env = None →
   main env true [] None =
     Some {| exit_code := 0; stdout := EmptyString; stderr := [];
             disk := None; net := [] |}) ∧
  ∀ content, ∃ db,
    readBookmarkDB (bookmarkDB env) (ReadOK content) = inr db ∧
    (∀ k, k ∈ dom (bookmarks db) ↔ k ≠ EmptyString ∧ is_line content k) ∧
    (∀ k bm, bookmarks db !! k = Some bm → bm = {| url := k |}).
Proof.
  intros Hrange empty.
  assert (list_bookmarks (range_order env) empty = EmptyString) as Hlist.
  { unfold list_bookmarks. simpl.
    rewrite (list_in_order_Permutation _ _ (Hrange _)).
    by rewrite map_to_list_empty. }
  split_and!; [done|done| |].
  - intros Hread. unfold main, ReadFile. rewrite Hread. simpl.
    fold empty. by rewrite Hlist.
  - intros content. eexists. split; [reflexivity|]. simpl. split.
    + intros k. rewrite elem_of_dom, foldl_add_line_lookup, lookup_empty.
      fold (fields content). rewrite <- elem_of_fields.
      case_decide; [|split; [by intros [? ?]|done]].
      split; [done|eauto].
    + intros k bm. rewrite foldl_add_line_lookup, lookup_empty.
      case_decide; [|done]. by intros [= <-].
Qed.

Lemma load_store_witness :
  main (world (always (status 200)) 0) true [] None =
    Some {| exit_code := 0; stdout := EmptyString; stderr := [];
            disk := None; net := [] |}.
Proof.
  refine (proj1 (proj2 (proj2 (load_store (world (always (status 200)) 0) _)))
            eq_refl).
  intros l. apply reverse_Permutation.
Defined.

(** ** A file of URLs *)


Lemma fields_line (u rest : string) :
  has_nl u = false →
  fields (u +:+ String Go.nl rest) = u :: fields rest.
Proof.
  induction u as [|c u IH]; intros Hu.
  - by rewrite sapp_nil_l, fields_nl.
  - apply has_nl_cons in Hu as [Hc Hu]. rewrite sapp_cons.
    destruct (fields_other c (u +:+ String Go.nl rest) Hc)
      as (hd & tl & Hf & ->).
    rewrite IH in Hf by done. by injection Hf as <- <-.
Qed.



(** A run of [bookmark arg] that exits with code 0 has read the file, found
    the normalised URL new, and appended it with a newline. *)
Lemma main_add_ok (env : Env) (arg : string) (d : option string) (p : Proc) :
  main env false [arg] d = Some p →
  exit_code p = 0 →
  ∃ u db,
    read_err env = None ∧
    readBookmarkDB (bookmarkDB env) (ReadFile env d) = inr db ∧
    Parse env arg = Some u ∧
    bookmarks db !! u = None ∧
    disk p = Some (default EmptyString d +:+ Println u).
Proof.
  unfold main. intros Hmain Hexit.
  destruct (readBookmarkDB _ _) as [e|db] eqn:Hload;
    [by simplify_eq/=|].
  assert (read_err env = None) as Hread.
  { unfold ReadFile in Hload. by destruct (read_err env). }
  change (add env db d arg = Some p) in Hmain. unfold add in Hmain.
  destruct (Parse env arg) as [u|]; [|by simplify_eq/=].
  exists u, db.
  destruct (decide (is_Some (bookmarks db !! u))) as [Hdup|Hnew];
    [by simplify_eq/=|].
  apply eq_None_not_Some in Hnew.
  split_and!; [done..|].
  repeat case_match; simplify_eq/=; done.
Qed.





(** The printed order on a sample: byte-wise, so upper case sorts before
    lower case and a prefix before its extensions. *)
Lemma Strings_sample :
  Go.Strings ["http://b/"; "http://a/x"; "http://B/"; "http://a/"] =
    ["http://B/"; "http://a/"; "http://a/x"; "http://b/"].
Proof. vm_compute. reflexivity. Qed.

(** * Further properties of the fetcher *)

(** Every pass of a run is the loop body run from a state that still has
    the URL [savePage] was given, and the run ends with what the last pass
    decides. *)
Lemma loop_pass (fuel : nat) (env : Env) (st st' : Loop) (res : Saved)
    (k : nat) :
  loop fuel env st = Some (res, st') →
  (passes st ≤ k < passes st')%nat →
  ∃ stk c s,
    passes stk = k ∧ urlstr stk = urlstr st ∧ retry stk < maxRetry ∧
    body env stk = (c, s) ∧
    match c with
    | CReturn e => res = SavedErr e ∧ st' = s
    | CFatal msg => res = SavedFatal msg ∧ st' = s
    | CContinue _ => (passes s ≤ passes st')%nat
    | CBreak => res = SavedNil ∧ st' = s
    end.
Proof.
  revert st. induction fuel as [|fuel IH]; intros st; simpl.
  - destruct (retry st <? maxRetry); [done|]. intros [= <- <-]. lia.
  - destruct (Z.ltb_spec (retry st) maxRetry); [|intros [= <- <-]; lia].
    intros Hl Hk.
    destruct (body env st) as [c st1] eqn:Hb.
    pose proof (body_passes env st) as Hp. rewrite Hb in Hp. simpl in Hp.
    destruct (decide (k = passes st)) as [->|Hne].
    + exists st, c, st1. split_and!; [done..|].
      destruct c; simplify_eq/=; try done.
      apply body_continue in Hb as (Hr & _ & _).
      apply loop_bounds in Hl as (_ & ? & _); [done|lia].
    + destruct c; try (simplify_eq/=; lia).
      apply body_continue in Hb as (Hr & Hu & _).
      destruct (IH st1 Hl) as (stk & c & s & ? & ? & ? & ? & ?); [lia|].
      exists stk, c, s. split_and!; [done|congruence|done..].
Qed.



Lemma loop_fuel_irrelevant (fuel : nat) (env : Env) (u : string)
    (r : Saved * Loop) :
  savePage env u = Some r → (3 ≤ fuel)%nat →
  loop fuel env (start u) = Some r.
Proof.
  intros Hrun Hfuel. unfold savePage in Hrun.
  change (Z.to_nat maxRetry) with 3%nat in Hrun.
  induction Hfuel as [|fuel _ IH]; [done|]. by apply loop_more.
Qed.

(** A pass that backs off: status 429 or 503 with a positive
    [Retry-After]. *)
Lemma body_backoff (env : Env) (st : Loop) (r : Response) :
  attempt env (passes st) (urlstr st) = Responded r →
  StatusCode r = 429 ∨ StatusCode r = 503 →
  0 < (Go.Atoi (RetryAfter r)).1 →
  body env st =
    (CContinue Backoff,
     {| retry := retry st + 1; urlstr := urlstr st;
        passes := S (passes st);
        events := events st ++
          [Get (urlstr st);
           Sleep (Go.wrap64
                    (Go.Sub (Go.Unix (Go.Atoi (RetryAfter r)).1)
                       (Go.at_nano (Now env (passes st)))
                     + 1 * Go.Minute))] |}).
Proof.
  intros Ha Hs Hn. unfold body. simpl. rewrite Ha.
  apply Z.ltb_lt in Hn. rewrite Hn.
  unfold set_retry, log_event. simpl. rewrite <- app_assoc. simpl.
  destruct Hs as [-> | ->]; reflexivity.
Qed.

(** X1.  [savePage] always returns: it makes at least one pass through
    the loop and at most three, [retry] ends between 0 and 3, and running
    the loop with a larger bound gives the same result. *)
Theorem savePage_returns_within_three_passes (env : Env) (u : string) :
  ∃ res st,
    savePage env u = Some (res, st) ∧
    (1 ≤ passes st ≤ 3)%nat ∧ 0 ≤ retry st ≤ 3 ∧
    ∀ fuel, (3 ≤ fuel)%nat → loop fuel env (start u) = Some (res, st).
Proof.
  destruct (savePage_total env u) as [[res st] Hrun].
  exists res, st. split; [done|].
  pose proof (savePage_passes env u res st Hrun) as [Hp Hr].
  pose proof (loop_bounds _ _ _ _ _ Hrun) as (Hr0 & _ & _);
    [simpl; unfold maxRetry; lia|]. simpl in Hr0.
  split_and!; [|lia|lia|lia|].
  - unfold savePage in Hrun. change (Z.to_nat maxRetry) with 3%nat in Hrun.
    rewrite loop_S in Hrun. change (retry (start u) <? maxRetry) with true in Hrun.
    destruct (body env (start u)) as [c st1] eqn:Hb.
    pose proof (body_passes env (start u)) as Hp1.
    rewrite Hb in Hp1. simpl in Hp1.
    destruct c; try (simplify_eq/=; lia).
    apply body_continue in Hb as (Hr1 & _ & _).
    apply loop_bounds in Hrun as (_ & ? & _); [lia|].
    rewrite Hr1. simpl. unfold maxRetry. lia.
  - intros fuel Hfuel. by apply loop_fuel_irrelevant.
Qed.

(** X2.  [savePage] never ends the process: whatever the servers answer,
    it returns nil or an error to its caller, and the call of [log.Fatal]
    with "max retries exceeded" is never reached. *)
Theorem savePage_never_fatal (env : Env) (u : string) :
  ∃ res st,
    savePage env u = Some (res, st) ∧
    (res = SavedNil ∨ ∃ e, res = SavedErr e) ∧
    ∀ st0, retry st0 < maxRetry →
      ∀ msg, (body env st0).1 ≠ CFatal msg.
Proof.
  destruct (savePage_total env u) as [[res st] Hrun].
  exists res, st. split_and!; [done| |].
  - destruct res as [|e|msg]; [by left|right; by exists e|].
    by apply loop_never_fatal in Hrun.
  - intros st0 Hr msg Hb.
    destruct (body env st0) as [c s] eqn:Hbody. simpl in Hb. subst c.
    body_cases Hbody; eqb_to_eq; lia.
Qed.

(** X3.  Success by default.  A first response whose status is below
    2500, is not 404, is not a 3xx, and is not a 429 or 503 with a positive
    [Retry-After] makes [savePage] return nil after that one request: so
    for 200, but also for 403, 500 or a 503 without the header.  If the
    URL is new and no I/O fails, [add] then appends it and exits with
    code 0. *)
Theorem unhandled_status_is_success (env : Env) (db : BookmarkDB)
    (d : option string) (arg u : string) (r : Response) :
  attempt env 0 u = Responded r →
  StatusCode r < 2500 →
  StatusCode r ≠ 404 →
  ¬ (300 ≤ StatusCode r ≤ 399) →
  (StatusCode r = 429 ∨ StatusCode r = 503 →
   (Go.Atoi (RetryAfter r)).1 ≤ 0) →
  savePage env u =
    Some (SavedNil,
          {| retry := 0; urlstr := u; passes := 1; events := [Get u] |}) ∧
  (Parse env arg = Some u → bookmarks db !! u = None →
   open_err env = None → write_err env = None → close_err env = None →
   add env db d arg =
     Some {| exit_code := 0; stdout := EmptyString; stderr := [];
             disk := Some (default EmptyString d +:+ u +:+ newline);
             net := [Get u] |}).
Proof.
  intros Ha Hlow H404 H3xx Hhdr.
  assert (savePage env u =
    Some (SavedNil,
          {| retry := 0; urlstr := u; passes := 1; events := [Get u] |}))
    as Hrun.
  { unfold savePage. simpl.
    assert (body env (start u) =
      (CBreak, {| retry := 0; urlstr := u; passes := 1;
                  events := [Get u] |})) as ->; [|done].
    unfold body. simpl. rewrite Ha.
    assert (redirect_and_5xx
              (log_event (next_pass (start u)) (Get u)) r =
            (CBreak, {| retry := 0; urlstr := u; passes := 1;
                        events := [Get u] |})) as Hrest.
    { rewrite redirect_and_5xx_low by done.
      by rewrite quot_100_3_false. }
    destruct (400 <=? StatusCode r); [|done].
    destruct (Z.eqb_spec (StatusCode r) 404); [done|].
    destruct (Z.eqb_spec (StatusCode r) 429) as [H429|_];
      [|destruct (Z.eqb_spec (StatusCode r) 503) as [H503|_]]; simpl;
      [| |done].
    - destruct (Z.ltb_spec 0 (Go.Atoi (RetryAfter r)).1); [|done].
      specialize (Hhdr (or_introl H429)). lia.
    - destruct (Z.ltb_spec 0 (Go.Atoi (RetryAfter r)).1); [|done].
      specialize (Hhdr (or_intror H503)). lia. }
  split; [done|].
  intros Hparse Hnew Hopen Hwrite Hclose. unfold add.
  rewrite Hparse, decide_False by (rewrite Hnew; by intros [? ?]).
  by rewrite Hrun, Hopen, Hwrite, Hclose.
Qed.

Lemma unhandled_status_is_success_witness :
  add (world (always (status 403)) noon)
    {| file := "/home/user/.bookmark"; data := EmptyString;
       bookmarks := ∅ |}
    None "http://example.com/private" =
  Some {| exit_code := 0; stdout := EmptyString; stderr := [];
          disk := Some ("http://example.com/private" +:+ newline);
          net := [Get "http://example.com/private"] |}.
Proof.
  refine (proj2 (unhandled_status_is_success
            (world (always (status 403)) noon)
            {| file := "/home/user/.bookmark"; data := EmptyString;
               bookmarks := ∅ |}
            None "http://example.com/private" "http://example.com/private"
            (status 403) eq_refl _ _ _ _)
            eq_refl (lookup_empty _) eq_refl eq_refl eq_refl);
    simpl; lia.
Defined.

(** X4.  Failures below HTTP are not retried.  If the [k]-th pass of a run
    fails in [http.NewRequest] or in [client.Do], [savePage] returns that
    error from that pass; if reading the body fails, it returns the error
    prefixed with "reading response body: ".  That pass is the last one,
    and [add], called on a new URL, ends with exit code 1 and the file
    untouched. *)
Theorem transport_error_is_returned (env : Env) (db : BookmarkDB)
    (d : option string) (arg u : string) (k : nat) (e : Go.error) :
  Parse env arg = Some u →
  bookmarks db !! u = None →
  attempt env k u = NewRequestErr e ∨ attempt env k u = DoErr e ∨
  attempt env k u = ReadAllErr e →
  ∃ res st,
    savePage env u = Some (res, st) ∧
    ((k < passes st)%nat →
     let msg := match attempt env k u with
                | ReadAllErr _ => "reading response body: " +:+ e
                | _ => e
                end in
     res = SavedErr msg ∧ passes st = S k ∧
     add env db d arg = Some (Fatal msg d (events st))).
Proof.
  intros Hparse Hnew Ha.
  destruct (savePage_total env u) as [[res st] Hrun].
  exists res, st. split; [done|]. intros Hk msg.
  destruct (loop_pass _ _ _ _ _ k Hrun)
    as (stk & c & s & Hpk & Huk & _ & Hb & Hend); [simpl; lia|].
  simpl in Huk.
  assert (c = CReturn msg ∧ passes s = S k) as [-> Hps].
  { unfold body in Hb. simpl in Hb. rewrite Hpk, Huk in Hb. subst msg.
    destruct Ha as [Ha|[Ha|Ha]]; rewrite Ha in Hb |- *;
      simplify_eq/=; done. }
  destruct Hend as [-> ->]. split_and!; [done..|].
  by eapply add_fetch_error.
Qed.

Lemma transport_error_is_returned_witness :
  add (world offline noon)
    {| file := "/home/user/.bookmark"; data := EmptyString;
       bookmarks := ∅ |}
    (Some EmptyString) "ftp://example.com/" =
  Some (Fatal "unsupported protocol scheme" (Some EmptyString)
          [Get "ftp://example.com/"]).
Proof.
  destruct (transport_error_is_returned (world offline noon)
              {| file := "/home/user/.bookmark"; data := EmptyString;
                 bookmarks := ∅ |}
              (Some EmptyString) "ftp://example.com/" "ftp://example.com/"
              0 "unsupported protocol scheme"
              eq_refl (lookup_empty _) (or_intror (or_introl eq_refl)))
    as (res & st & Hrun & Hk).
  vm_compute in Hrun. injection Hrun as <- <-.
  destruct Hk as (_ & _ & Hadd); [simpl; lia|].
  exact Hadd.
Defined.


(** X6.  Exhausting the retries is reported as success.  If the first
    three requests are each answered 429 or 503 with a positive
    [Retry-After], [savePage] returns nil after exactly three requests and
    three sleeps, with [retry] at 3; a new URL is then appended by [add],
    which exits with code 0 when no I/O fails. *)
Theorem three_backoffs_return_nil (env : Env) (db : BookmarkDB)
    (d : option string) (arg u : string) :
  (∀ k, (k < 3)%nat →
     ∃ r, attempt env k u = Responded r ∧
          (StatusCode r = 429 ∨ StatusCode r = 503) ∧
          0 < (Go.Atoi (RetryAfter r)).1) →
  ∃ st,
    savePage env u = Some (SavedNil, st) ∧
    retry st = 3 ∧ passes st = 3%nat ∧
    requests (events st) = [u; u; u] ∧ length (events st) = 6%nat ∧
    (Parse env arg = Some u → bookmarks db !! u = None →
     open_err env = None → write_err env = None → close_err env = None →
     ∃ p, add env db d arg = Some p ∧ exit_code p = 0 ∧
          disk p = Some (default EmptyString d +:+ u +:+ newline)).
Proof.
  intros Hbusy.
  destruct (Hbusy 0%nat) as (r0 & Ha0 & Hs0 & Hn0); [lia|].
  destruct (Hbusy 1%nat) as (r1 & Ha1 & Hs1 & Hn1); [lia|].
  destruct (Hbusy 2%nat) as (r2 & Ha2 & Hs2 & Hn2); [lia|].
  eassert (savePage env u = Some (SavedNil, _)) as Hrun.
  { unfold savePage. change (Z.to_nat maxRetry) with 3%nat.
    rewrite loop_S. change (retry (start u) <? maxRetry) with true. cbv iota.
    rewrite (body_backoff env (start u) r0 Ha0 Hs0 Hn0).
    rewrite loop_S. simpl retry. change (0 + 1 <? maxRetry) with true.
    cbv iota.
    erewrite (body_backoff env _ r1); [|exact Ha1|exact Hs1|exact Hn1].
    rewrite loop_S. simpl retry. change (0 + 1 + 1 <? maxRetry) with true.
    cbv iota.
    erewrite (body_backoff env _ r2); [|exact Ha2|exact Hs2|exact Hn2].
    simpl. reflexivity. }
  eexists. split; [exact Hrun|].
  simpl. split_and!; [done..|].
  intros Hparse Hnew Hopen Hwrite Hclose. eexists. split.
  { unfold add. rewrite Hparse.
    rewrite decide_False by (rewrite Hnew; by intros [? ?]).
    by rewrite Hrun, Hopen, Hwrite, Hclose. }
  done.
Qed.

Lemma three_backoffs_return_nil_witness :
  ∃ st, savePage (world (always busy) noon) "http://example.com/" =
          Some (SavedNil, st) ∧
        retry st = 3 ∧ passes st = 3%nat.
Proof.
  destruct (three_backoffs_return_nil (world (always busy) noon)
              {| file := "/home/user/.bookmark"; data := EmptyString;
                 bookmarks := ∅ |}
              None "http://example.com/" "http://example.com/")
    as (st & Hrun & Hr & Hp & _).
  - intros k _. exists busy. split_and!; [done|by left|].
    vm_compute. reflexivity.
  - by exists st.
Defined.

(** X7.  The [Retry-After] value is read as a Unix time in seconds.  When
    that time plus one minute is not after the clock, as for a header that
    gives a delay in seconds, the sleep asked for is not positive, so the
    pass does not wait; it still uses up one retry. *)
Theorem past_retry_after_does_not_wait (env : Env) (st : Loop)
    (r : Response) :
  attempt env (passes st) (urlstr st) = Responded r →
  StatusCode r = 429 ∨ StatusCode r = 503 →
  0 < (Go.Atoi (RetryAfter r)).1 →
  (Go.Atoi (RetryAfter r)).1 * Go.Second + Go.Minute ≤ Now env (passes st) →
  ∃ dur st',
    body env st = (CContinue Backoff, st') ∧
    events st' = events st ++ [Get (urlstr st); Sleep dur] ∧
    dur ≤ 0 ∧ retry st' = retry st + 1.
Proof.
  intros Ha Hs Hn Hpast.
  rewrite (body_backoff env st r Ha Hs Hn).
  eexists _, _. split; [reflexivity|]. simpl. split_and!; [done| |done].
  pose proof (Sub_Unix_past _ _ Hn Hpast) as Hsub.
  pose proof (Sub_bounds (Go.Unix (Go.Atoi (RetryAfter r)).1)
                (Go.at_nano (Now env (passes st)))) as Hb.
  rewrite wrap64_id;
    unfold Go.minDuration, Go.maxDuration, Go.Minute, Go.Second in *; lia.
Qed.

Lemma past_retry_after_does_not_wait_witness :
  body (world (always {| StatusCode := 503; RetryAfter := "120";
                         Location := None |}) noon)
       (start "http://example.com/") =
    (CContinue Backoff,
     {| retry := 1; urlstr := "http://example.com/"; passes := 1;
        events := [Get "http://example.com/";
                   Sleep (-1699999820000000000)] |}).
Proof.
  destruct (past_retry_after_does_not_wait
              (world (always {| StatusCode := 503; RetryAfter := "120";
                                Location := None |}) noon)
              (start "http://example.com/")
              {| StatusCode := 503; RetryAfter := "120"; Location := None |}
              eq_refl (or_intror eq_refl))
    as (dur & st' & Hb & _).
  - vm_compute. reflexivity.
  - vm_compute. congruence.
  - vm_compute. reflexivity.
Defined.

(** * Further properties of the store *)

Lemma sapp_length (s t : string) :
  String.length (s +:+ t) = (String.length s + String.length t)%nat.
Proof.
  induction s as [|c s IH]; [done|]. rewrite sapp_cons. simpl. by rewrite IH.
Qed.

Lemma has_nl_app (s t : string) :
  has_nl (s +:+ t) = false ↔ has_nl s = false ∧ has_nl t = false.
Proof.
  induction s as [|c s IH]; [by rewrite sapp_nil_l; intuition|].
  rewrite sapp_cons, !has_nl_cons, IH. tauto.
Qed.

(** The fields of a concatenation: the last field of the first part and
    the first field of the second part are joined. *)
Lemma fields_app (s t : string) :
  ∃ hs ls ht tt,
    fields s = hs ++ [ls] ∧ fields t = ht :: tt ∧
    fields (s +:+ t) = hs ++ (ls +:+ ht) :: tt.
Proof.
  induction s as [|c s (hs & ls & ht & tt & Hs & Ht & Hst)].
  - destruct (fields t) as [|ht tt] eqn:Ht.
    { unfold fields in Ht. apply fmap_nil_inv in Ht.
      by apply SplitAfter_not_nil in Ht. }
    exists [], EmptyString, ht, tt. by rewrite sapp_nil_l, Ht.
  - rewrite sapp_cons. destruct (decide (c = Go.nl)) as [->|Hc].
    + exists (EmptyString :: hs), ls, ht, tt.
      by rewrite !fields_nl, Hs, Hst.
    + destruct (fields_other c s Hc) as (hd & tl & Hf & ->).
      destruct (fields_other c (s +:+ t) Hc) as (hd' & tl' & Hf' & ->).
      rewrite Hs in Hf. rewrite Hst in Hf'.
      destruct hs as [|h hs]; simpl in Hf, Hf';
        injection Hf as <- <-; injection Hf' as <- <-.
      * exists [], (String c ls), ht, tt. by rewrite sapp_cons.
      * exists (String c h :: hs), ls, ht, tt. done.
Qed.

(** A file that is empty or ends with a newline has an empty last
    field. *)
Lemma fields_terminated (c : string) :
  terminated (Some c) → ∃ hs, fields c = hs ++ [EmptyString].
Proof.
  intros [-> | [c' ->]]; [by exists []|].
  destruct (fields_app c' newline) as (hs & ls & ht & tt & Hs & Ht & ->).
  unfold newline in Ht. rewrite fields_nl, fields_nil in Ht.
  injection Ht as <- <-. exists (hs ++ [ls]).
  by rewrite sapp_nil_r, <- app_assoc.
Qed.

(** The fields after a line [w] was appended to a file whose fields end
    with [ls]: the line is joined to [ls]. *)
Lemma fields_append (c w : string) (hs : list string) (ls : string) :
  fields c = hs ++ [ls] →
  has_nl w = false →
  fields (c +:+ w +:+ newline) = hs ++ [ls +:+ w; EmptyString].
Proof.
  intros Hc Hw.
  destruct (fields_app c (w +:+ newline))
    as (hs' & ls' & ht & tt & Hs & Ht & ->).
  unfold newline in Ht. rewrite fields_line, fields_nil in Ht by done.
  injection Ht as <- <-. rewrite Hc in Hs.
  apply app_inj_tail in Hs as [-> ->]. done.
Qed.

Lemma loaded_lookup (path content : string) (db : BookmarkDB) (k : string) :
  readBookmarkDB path (ReadOK content) = inr db →
  bookmarks db !! k =
    if decide (k ≠ EmptyString ∧ k ∈ fields content)
    then Some {| url := k |} else None.
Proof.
  intros [= <-]. simpl.
  by rewrite foldl_add_line_lookup, lookup_empty.
Qed.

Lemma fields_no_nl (l : string) : has_nl l = false → fields l = [l].
Proof.
  induction l as [|c l IH]; [done|]. intros [Hc Hl]%has_nl_cons.
  destruct (fields_other c l Hc) as (hd & tl & Hf & ->).
  rewrite IH in Hf by done. by injection Hf as <- <-.
Qed.

(** The store read by a run whose [ReadFile] does not fail: the keys are
    the non-empty fields of the file, an absent file counting as empty. *)
Lemma load_file (env : Env) (d : option string) :
  read_err env = None →
  ∃ db, readBookmarkDB (bookmarkDB env) (ReadFile env d) = inr db ∧
    ∀ k, bookmarks db !! k =
           if decide (k ≠ EmptyString ∧ k ∈ fields (default EmptyString d))
           then Some {| url := k |} else None.
Proof.
  intros Hread. unfold ReadFile. rewrite Hread. destruct d as [c|].
  - eexists. split; [reflexivity|]. intros k.
    by apply (loaded_lookup (bookmarkDB env) c).
  - eexists. split; [reflexivity|]. intros k. simpl.
    rewrite lookup_empty, decide_False; [done|].
    by intros [? ?%list_elem_of_singleton].
Qed.

(** The keys after a line [w] was appended to a file whose fields end
    with [ls]. *)
Lemma in_fields_append (c w : string) (hs : list string) (ls k : string) :
  fields c = hs ++ [ls] →
  has_nl w = false →
  (k ≠ EmptyString ∧ k ∈ fields (c +:+ w +:+ newline)) ↔
  k ≠ EmptyString ∧ (k = ls +:+ w ∨ k ∈ hs).
Proof.
  intros Hc Hw. rewrite (fields_append c w hs ls Hc Hw).
  rewrite elem_of_app, !elem_of_cons, elem_of_nil. tauto.
Qed.

Lemma in_fields_last (c : string) (hs : list string) (ls k : string) :
  fields c = hs ++ [ls] →
  (k ≠ EmptyString ∧ k ∈ fields c) ↔ k ≠ EmptyString ∧ (k = ls ∨ k ∈ hs).
Proof.
  intros ->. rewrite elem_of_app, list_elem_of_singleton. tauto.
Qed.

(** The new file after a run of [bookmark arg] that exits with code 0:
    what is appended is the normalised URL and a newline. *)
Lemma main_add_ok_disk (env : Env) (arg u : string) (d : option string)
    (p : Proc) :
  Parse env arg = Some u →
  main env false [arg] d = Some p →
  exit_code p = 0 →
  read_err env = None ∧
  disk p = Some (default EmptyString d +:+ u +:+ newline) ∧
  ¬ (u ≠ EmptyString ∧ u ∈ fields (default EmptyString d)).
Proof.
  intros Hparse Hmain Hexit.
  destruct (main_add_ok env arg d p Hmain Hexit)
    as (u' & db & Hread & Hload & Hparse' & Hnew & Hdisk).
  assert (u' = u) as -> by congruence.
  split_and!; [done..|].
  destruct (load_file env d Hread) as (db' & Hload' & Hlook).
  assert (db' = db) as -> by congruence.
  rewrite Hlook in Hnew. by case_decide.
Qed.

(** X8.  Appending on disk is insertion in the store.  The backing file is
    absent, empty or ends with a newline, and a run of [bookmark arg] exits
    with code 0, [u] being the normalised URL, not empty and without
    newline.  Then [u] was not a key of the store that run loaded, and the
    store that any later run loads is that store with [u] inserted. *)
Theorem successful_add_inserts_into_store (env env' : Env)
    (d : option string) (arg u : string) (p : Proc) :
  terminated d →
  storable u →
  Parse env arg = Some u →
  main env false [arg] d = Some p →
  exit_code p = 0 →
  read_err env' = None →
  ∃ db db',
    readBookmarkDB (bookmarkDB env) (ReadFile env d) = inr db ∧
    readBookmarkDB (bookmarkDB env') (ReadFile env' (disk p)) = inr db' ∧
    bookmarks db !! u = None ∧
    bookmarks db' = <[u := {| url := u |}]> (bookmarks db).
Proof.
  intros Hterm [Hu Hnl] Hparse Hmain Hexit Hread'.
  destruct (main_add_ok_disk env arg u d p Hparse Hmain Hexit)
    as (Hread & Hdisk & Hnew).
  destruct (load_file env d Hread) as (db & Hload & Hlook).
  destruct (load_file env' (disk p) Hread') as (db' & Hload' & Hlook').
  exists db, db'. split_and!; [done..| |].
  { rewrite Hlook. by rewrite decide_False. }
  assert (terminated (Some (default EmptyString d))) as Hterm'.
  { destruct d; [done|by left]. }
  apply fields_terminated in Hterm' as [hs Hhs].
  apply map_eq. intros k. rewrite Hlook', Hdisk. simpl.
  destruct (decide (k = u)) as [->|Hk].
  - rewrite lookup_insert_eq, decide_True; [done|].
    apply (in_fields_append _ _ hs EmptyString); [done..|].
    split; [done|]. left. by rewrite sapp_nil_l.
  - rewrite lookup_insert_ne, Hlook by done.
    apply decide_ext.
    rewrite (in_fields_append _ _ hs EmptyString) by done.
    rewrite (in_fields_last _ hs EmptyString) by done.
    rewrite sapp_nil_l. intuition.
Qed.

Lemma successful_add_inserts_into_store_witness :
  ∃ db',
    readBookmarkDB "/home/user/.bookmark"
      (ReadOK ("http://a.example/" +:+ newline +:+
               "http://b.example/" +:+ newline)) = inr db' ∧
    bookmarks db' =
      <["http://b.example/" := {| url := "http://b.example/" |}]>
        (foldl add_line ∅
           (Go.SplitAfter ("http://a.example/" +:+ newline))).
Proof.
  destruct (successful_add_inserts_into_store
              (world (always (status 200)) noon)
              (world (always (status 200)) noon)
              (Some ("http://a.example/" +:+ newline))
              "http://b.example/" "http://b.example/"
              {| exit_code := 0; stdout := EmptyString; stderr := [];
                 disk := Some ("http://a.example/" +:+ newline +:+
                               "http://b.example/" +:+ newline);
                 net := [Get "http://b.example/"] |})
    as (db & db' & Hload & Hload' & _ & Heq).
  - right. by exists "http://a.example/".
  - by split.
  - reflexivity.
  - vm_compute. reflexivity.
  - reflexivity.
  - reflexivity.
  - exists db'. split; [exact Hload'|].
    rewrite Heq. by injection Hload as <-.
Defined.

Lemma fields_unterminated (c0 l : string) (hs : list string) :
  fields c0 = hs ++ [EmptyString] →
  has_nl l = false →
  fields (c0 +:+ l) = hs ++ [l].
Proof.
  intros Hhs Hl.
  destruct (fields_app c0 l) as (hs' & ls & ht & tt & Hs & Ht & ->).
  rewrite fields_no_nl in Ht by done. injection Ht as <- <-.
  rewrite Hhs in Hs. apply app_inj_tail in Hs as [-> <-].
  by rewrite sapp_nil_l.
Qed.

Lemma sapp_neq_r (l u : string) : l ≠ EmptyString → u ≠ l +:+ u.
Proof.
  intros Hl Heq. apply (f_equal String.length) in Heq.
  rewrite sapp_length in Heq. destruct l; [done|simpl in Heq; lia].
Qed.

Lemma sapp_neq_l (l u : string) : u ≠ EmptyString → l ≠ l +:+ u.
Proof.
  intros Hu Heq. apply (f_equal String.length) in Heq.
  rewrite sapp_length in Heq. destruct u; [done|simpl in Heq; lia].
Qed.

(** X9.  A last line without newline is glued to the next URL.  The file
    is [c0], empty or ending with a newline, followed by a non-empty
    stretch [l] without newline.  After a run of [bookmark arg] that exits
    with code 0, [u] being the normalised URL, the store that a later run
    loads is the store of [c0] with the single key [l] followed by [u]
    inserted: neither [l] nor [u] is a key of it unless it was a line of
    [c0]. *)
Theorem unterminated_last_line_is_glued (env env' : Env)
    (c0 l arg u : string) (p : Proc) :
  terminated (Some c0) →
  l ≠ EmptyString → has_nl l = false →
  storable u →
  Parse env arg = Some u →
  main env false [arg] (Some (c0 +:+ l)) = Some p →
  exit_code p = 0 →
  read_err env' = None →
  ∃ db0 db',
    readBookmarkDB (bookmarkDB env') (ReadOK c0) = inr db0 ∧
    readBookmarkDB (bookmarkDB env') (ReadFile env' (disk p)) = inr db' ∧
    bookmarks db' = <[l +:+ u := {| url := l +:+ u |}]> (bookmarks db0) ∧
    (u ∈ dom (bookmarks db') ↔ u ∈ dom (bookmarks db0)) ∧
    (l ∈ dom (bookmarks db') ↔ l ∈ dom (bookmarks db0)).
Proof.
  intros Hterm Hl Hlnl [Hu Hunl] Hparse Hmain Hexit Hread'.
  destruct (main_add_ok_disk env arg u _ p Hparse Hmain Hexit)
    as (_ & Hdisk & _). simpl in Hdisk.
  destruct (load_file env' (Some c0) Hread') as (db0 & Hload0 & Hlook0).
  destruct (load_file env' (disk p) Hread') as (db' & Hload' & Hlook').
  unfold ReadFile in Hload0. rewrite Hread' in Hload0.
  exists db0, db'.
  assert (bookmarks db' =
          <[l +:+ u := {| url := l +:+ u |}]> (bookmarks db0)) as Heq.
  { apply fields_terminated in Hterm as [hs Hhs].
    pose proof (fields_unterminated c0 l hs Hhs Hlnl) as Hfl.
    apply map_eq. intros k. rewrite Hlook', Hdisk. simpl.
    destruct (decide (k = l +:+ u)) as [->|Hk].
    - rewrite lookup_insert_eq, decide_True; [done|].
      apply (in_fields_append _ _ hs l); [done..|].
      split; [|by left]. by intros [? _]%sapp_eq_nil.
    - rewrite lookup_insert_ne, Hlook0 by done. simpl.
      apply decide_ext.
      rewrite (in_fields_append _ _ hs l) by done.
      rewrite (in_fields_last _ hs EmptyString) by done.
      intuition. }
  split_and!; [done..| |].
  - rewrite !elem_of_dom, Heq, lookup_insert_ne; [done|].
    intros H. by apply (sapp_neq_r l u).
  - rewrite !elem_of_dom, Heq, lookup_insert_ne; [done|].
    intros H. by apply (sapp_neq_l l u).
Qed.

Lemma unterminated_last_line_is_glued_witness :
  ∃ db',
    readBookmarkDB "/home/user/.bookmark"
      (ReadOK ("http://a.example/" +:+ "http://b.example/" +:+ newline))
      = inr db' ∧
    bookmarks db' =
      {["http://a.example/http://b.example/" :=
          {| url := "http://a.example/http://b.example/" |}]}.
Proof.
  destruct (unterminated_last_line_is_glued
              (world (always (status 200)) noon)
              (world (always (status 200)) noon)
              EmptyString "http://a.example/"
              "http://b.example/" "http://b.example/"
              {| exit_code := 0; stdout := EmptyString; stderr := [];
                 disk := Some ("http://a.example/" +:+
                               "http://b.example/" +:+ newline);
                 net := [Get "http://b.example/"] |})
    as (db0 & db' & Hload0 & Hload' & Heq & _).
  - by left.
  - done.
  - reflexivity.
  - by split.
  - reflexivity.
  - vm_compute. reflexivity.
  - reflexivity.
  - reflexivity.
  - exists db'. split; [exact Hload'|].
    rewrite Heq. injection Hload0 as <-.
    exact (insert_empty _ _).
Defined.

(** * Further properties of listing *)



(** X11.  What [list] prints does not depend on the order in which Go
    ranges over the map: any two orders give the same output. *)
Theorem list_order_irrelevant (db : BookmarkDB)
    (range1 range2 : list (string * Bookmark) → list (string * Bookmark)) :
  (∀ l, range1 l ≡ₚ l) →
  (∀ l, range2 l ≡ₚ l) →
  list_bookmarks range1 db = list_bookmarks range2 db.
Proof.
  intros H1 H2. unfold list_bookmarks.
  apply list_in_order_Permutation. by rewrite H1, H2.
Qed.

Lemma list_order_irrelevant_witness :
  list_bookmarks reverse
    {| file := "/home/user/.bookmark"; data := EmptyString;
       bookmarks := {["b" := {| url := "b" |}; "a" := {| url := "a" |}]} |} =
  list_bookmarks id
    {| file := "/home/user/.bookmark"; data := EmptyString;
       bookmarks := {["b" := {| url := "b" |}; "a" := {| url := "a" |}]} |}.
Proof.
  apply (list_order_irrelevant _ reverse id).
  - intros l. apply reverse_Permutation.
  - done.
Defined.

(** X12.  The store depends only on the set of non-empty lines of the
    file: two files with the same non-empty lines, in whatever order and
    however often repeated, load to the same map. *)
Theorem store_depends_on_lines_only (path c1 c2 : string) :
  (∀ k, k ≠ EmptyString → is_line c1 k ↔ is_line c2 k) →
  ∃ db1 db2,
    readBookmarkDB path (ReadOK c1) = inr db1 ∧
    readBookmarkDB path (ReadOK c2) = inr db2 ∧
    bookmarks db1 = bookmarks db2.
Proof.
  intros Hlines. eexists _, _. split_and!; [reflexivity..|].
  apply map_eq. intros k.
  rewrite (loaded_lookup path c1 _ k eq_refl).
  rewrite (loaded_lookup path c2 _ k eq_refl).
  apply decide_ext. rewrite !elem_of_fields.
  split; intros [? ?]; (split; [done|]); by apply Hlines.
Qed.

Lemma store_depends_on_lines_only_witness :
  ∃ db1 db2,
    readBookmarkDB "/home/user/.bookmark"
      (ReadOK ("a" +:+ newline +:+ "b" +:+ newline)) = inr db1 ∧
    readBookmarkDB "/home/user/.bookmark"
      (ReadOK ("b" +:+ newline +:+ newline +:+ "a" +:+ newline +:+ "b"))
      = inr db2 ∧
    bookmarks db1 = bookmarks db2.
Proof.
  apply store_depends_on_lines_only.
  intros k Hk. rewrite <- !elem_of_fields.
  change (fields ("a" +:+ newline +:+ "b" +:+ newline))
    with ["a"; "b"; EmptyString].
  change (fields ("b" +:+ newline +:+ newline +:+ "a" +:+ newline +:+ "b"))
    with ["b"; EmptyString; "a"; "b"].
  rewrite !elem_of_cons, !elem_of_nil. tauto.
Defined.

(** * Further properties of [add] and [main] *)

(** X13.  [add] is all or nothing when writing and closing do not fail.
    Either it exits with code 0, and then the URL parsed, was new, was
    fetched with a nil result, and exactly its normalised form and a
    newline were appended; or it exits with code 1 and one line on
    standard error, and the file is exactly what it was. *)
Theorem add_all_or_nothing (env : Env) (db : BookmarkDB)
    (d : option string) (arg : string) :
  write_err env = None →
  close_err env = None →
  ∃ p, add env db d arg = Some p ∧
    ((exit_code p = 0 ∧ stderr p = [] ∧
      ∃ u st, Parse env arg = Some u ∧ bookmarks db !! u = None ∧
              savePage env u = Some (SavedNil, st) ∧
              net p = events st ∧
              disk p = Some (default EmptyString d +:+ u +:+ newline)) ∨
     (exit_code p = 1 ∧ (∃ msg, stderr p = [log_line msg]) ∧ disk p = d)).
Proof.
  intros Hwrite Hclose. unfold add.
  destruct (Parse env arg) as [u|]; [|eexists; split; [done|right; eauto]].
  destruct (decide (is_Some (bookmarks db !! u))) as [Hdup|Hnew];
    [eexists; split; [done|right; eauto]|].
  apply eq_None_not_Some in Hnew.
  destruct (savePage_total env u) as [[res st] Hrun]. rewrite Hrun.
  destruct res; [|eexists; split; [done|right; eauto]..].
  destruct (open_err env); [eexists; split; [done|right; eauto]|].
  rewrite Hwrite, Hclose. eexists. split; [done|].
  left. simpl. split_and!; [done..|]. by exists u, st.
Qed.

Lemma add_all_or_nothing_witness :
  ∃ p, add (world (always (status 404)) noon)
         {| file := "/home/user/.bookmark"; data := EmptyString;
            bookmarks := ∅ |}
         (Some ("http://a.example/" +:+ newline)) "http://gone.example/"
       = Some p ∧
       exit_code p = 1 ∧
       disk p = Some ("http://a.example/" +:+ newline).
Proof.
  destruct (add_all_or_nothing (world (always (status 404)) noon)
              {| file := "/home/user/.bookmark"; data := EmptyString;
                 bookmarks := ∅ |}
              (Some ("http://a.example/" +:+ newline))
              "http://gone.example/" eq_refl eq_refl)
    as (p & Hadd & Hcases).
  exists p. split; [done|].
  destruct Hcases as [(Hexit & _)|(? & _ & ?)]; [|done].
  vm_compute in Hadd. injection Hadd as <-. done.
Defined.

(** X14.  No run takes anything away from the file.  Whatever fails, the
    file after a run starts with the file before it; and a run in list
    mode, or one that ends with the usage message, leaves the file as it
    is and sends no request. *)
Theorem main_never_truncates (env : Env) (flagList : bool)
    (args : list string) (d : option string) :
  ∃ p, main env flagList args d = Some p ∧
    (disk p = d ∨
     ∃ more, disk p = Some (default EmptyString d +:+ more)) ∧
    (flagList = true ∨ (1 < length args)%nat →
     disk p = d ∧ net p = []).
Proof.
  destruct (main_total env flagList args d) as [p Hp].
  exists p. split; [done|]. unfold main in Hp.
  destruct (readBookmarkDB _ _) as [e|db];
    [simplify_eq/=; split; auto|].
  destruct flagList.
  { destruct (0 <? length args)%nat; simplify_eq/=; split; auto. }
  destruct (1 <? length args)%nat eqn:Hlen.
  { simplify_eq/=; split; auto. }
  split.
  - unfold add in Hp. repeat case_match; simplify_eq/=; eauto.
  - apply Nat.ltb_ge in Hlen. intros [?|?]; [done|lia].
Qed.

(** X15.  A URL is added once.  The file is absent, empty or ends with a
    newline, and a run of [bookmark arg] exits with code 0, [u] being the
    normalised URL, not empty and without newline.  Any later run on an
    argument with the same normalised form ends with "duplicate" and exit
    code 1, without a request and without touching the file. *)
Theorem second_add_is_duplicate (env env' : Env) (d : option string)
    (arg arg' u : string) (p : Proc) :
  terminated d →
  storable u →
  Parse env arg = Some u →
  main env false [arg] d = Some p →
  exit_code p = 0 →
  read_err env' = None →
  Parse env' arg' = Some u →
  main env' false [arg'] (disk p) =
    Some (Fatal ("duplicate: " +:+ u) (disk p) []).
Proof.
  intros Hterm [Hu Hnl] Hparse Hmain Hexit Hread' Hparse'.
  destruct (main_add_ok_disk env arg u d p Hparse Hmain Hexit)
    as (_ & Hdisk & _).
  destruct (load_file env' (disk p) Hread') as (db' & Hload' & Hlook').
  unfold main. rewrite Hload'.
  change (add env' db' (disk p) arg' =
          Some (Fatal ("duplicate: " +:+ u) (disk p) [])).
  apply add_duplicate; [done|].
  rewrite Hlook', Hdisk. simpl.
  assert (terminated (Some (default EmptyString d))) as Hterm'.
  { destruct d; [done|by left]. }
  apply fields_terminated in Hterm' as [hs Hhs].
  rewrite decide_True; [done|].
  apply (in_fields_append _ _ hs EmptyString); [done..|].
  split; [done|]. left. by rewrite sapp_nil_l.
Qed.

Lemma second_add_is_duplicate_witness :
  main (world (always (status 200)) noon) false ["http://a.example/"]
    (Some ("http://a.example/" +:+ newline)) =
  Some (Fatal ("duplicate: " +:+ "http://a.example/")
          (Some ("http://a.example/" +:+ newline)) []).
Proof.
  apply (second_add_is_duplicate
           (world (always (status 200)) noon)
           (world (always (status 200)) noon)
           None "http://a.example/" "http://a.example/" "http://a.example/"
           {| exit_code := 0; stdout := EmptyString; stderr := [];
              disk := Some ("http://a.example/" +:+ newline);
              net := [Get "http://a.example/"] |}).
  - done.
  - by split.
  - reflexivity.
  - vm_compute. reflexivity.
  - reflexivity.
  - reflexivity.
  - reflexivity.
Defined.

(** X16.  The program keeps the file newline-terminated.  If the file is
    absent, empty or ends with a newline and writing does not fail part
    way, then after any run, successful or not, the file is again absent,
    empty or ending with a newline. *)
Theorem file_stays_terminated (env : Env) (flagList : bool)
    (args : list string) (d : option string) :
  terminated d →
  write_err env = None →
  ∃ p, main env flagList args d = Some p ∧ terminated (disk p).
Proof.
  intros Hterm Hwrite.
  destruct (main_total env flagList args d) as [p Hp].
  exists p. split; [done|]. unfold main in Hp.
  destruct (readBookmarkDB _ _) as [e|db]; [by simplify_eq/=|].
  destruct flagList.
  { destruct (0 <? length args)%nat; by simplify_eq/=. }
  destruct (1 <? length args)%nat; [by simplify_eq/=|].
  unfold add in Hp. rewrite Hwrite in Hp.
  repeat case_match; simplify_eq/=; try done.
  all: right; eexists; by rewrite <- sapp_assoc.
Qed.

Lemma file_stays_terminated_witness :
  ∃ p, main (world (always (status 200)) noon) false ["http://a.example/"]
         None = Some p ∧
       terminated (disk p).
Proof.
  exact (file_stays_terminated (world (always (status 200)) noon) false
           ["http://a.example/"] None I eq_refl).
Defined.

(** X17.  Exit code and diagnostics agree.  Every run ends with exit code
    0 and nothing on standard error, or with exit code 1 and exactly one
    line of package log, prefixed with the program name, or with exit
    code 2 and the usage message; only runs with exit code 0 write to
    standard output, and only in list mode. *)
Theorem exit_code_matches_stderr (env : Env) (flagList : bool)
    (args : list string) (d : option string) :
  ∃ p, main env flagList args d = Some p ∧
    ((exit_code p = 0 ∧ stderr p = []) ∨
     (exit_code p = 1 ∧ stdout p = EmptyString ∧
      ∃ msg, stderr p = [log_line msg]) ∨
     (exit_code p = 2 ∧ stdout p = EmptyString ∧
      usage_line ∈ stderr p ∧ disk p = d)) ∧
    (flagList = false → stdout p = EmptyString).
Proof.
  destruct (main_total env flagList args d) as [p Hp].
  exists p. split; [done|]. unfold main in Hp.
  destruct (readBookmarkDB _ _) as [e|db].
  { simplify_eq/=. split; [|done]. right. left. eauto. }
  destruct flagList.
  { destruct (0 <? length args)%nat; simplify_eq/=.
    - split; [|done]. right. right. split_and!; [done..| |done].
      apply elem_of_cons. by left.
    - split; [|done]. by left. }
  destruct (1 <? length args)%nat.
  { simplify_eq/=. split; [|done]. right. right. split_and!; [done..| |done].
    apply elem_of_cons. right. apply elem_of_cons. by left. }
  unfold add in Hp.
  repeat case_match; simplify_eq/=; (split; [|done]); eauto 10.
Qed.

(** * The [Retry-After] header *)

Lemma digit_range (c : ascii) (d : Z) : Go.digit c = Some d → 0 ≤ d ≤ 9.
Proof.
  unfold Go.digit. case_match eqn:Hc; [|done]. intros [= <-].
  apply andb_true_iff in Hc as [?%Z.leb_le ?%Z.leb_le]. lia.
Qed.

Lemma digits_not_all (s : string) (acc : Z) :
  all_digits s = false → Go.digits acc s = None.
Proof.
  revert acc. induction s as [|c s IH]; intros acc; simpl; [done|].
  destruct (Go.digit c); [apply IH|done].
Qed.

(** [ParseUint] reaches a byte that is not a digit, and reports a syntax
    error, when fewer than twenty digits precede it: nineteen digits
    cannot overflow a [uint64]. *)
Lemma ParseUint_loop_syntax (s : string) (n : Z) :
  all_digits s = false →
  0 ≤ n →
  (n + 1) * 10 ^ Z.of_nat (leading_digits s) ≤ 10 ^ 19 →
  Go.ParseUint_loop n s = (0, Some Go.ErrSyntax).
Proof.
  revert n. induction s as [|c s IH]; intros n Hall Hn Hinv; [done|].
  simpl in *. destruct (Go.digit c) as [d|] eqn:Hd; [|done].
  apply digit_range in Hd.
  rewrite Nat2Z.inj_succ, Z.pow_succ_r in Hinv by lia.
  assert (1 ≤ 10 ^ Z.of_nat (leading_digits s)) as Hpow
    by (apply Z.lt_pred_le, Z.pow_pos_nonneg; lia).
  set (P := 10 ^ Z.of_nat (leading_digits s)) in *. clearbody P.
  assert (n + 1 ≤ 10 ^ 18) as Hsmall by nia.
  unfold Go.maxUint64.
  destruct (Z.leb_spec ((2 ^ 64 - 1) / 10 + 1) n) as [Hcut|_].
  { exfalso. change ((2 ^ 64 - 1) / 10 + 1) with 1844674407370955162 in Hcut.
    lia. }
  rewrite (Z.mod_small (n * 10)) by lia.
  rewrite (Z.mod_small (n * 10 + d)) by lia.
  destruct (Z.ltb_spec (n * 10 + d) (n * 10)); [lia|].
  destruct (Z.ltb_spec (2 ^ 64 - 1) (n * 10 + d)); [lia|]. simpl.
  apply IH; [done|lia|nia].
Qed.

(** [Atoi] gives 0 on a string that, after an optional sign, is empty or
    has a byte that is not a digit behind fewer than twenty digits. *)
Lemma Atoi_invalid (s : string) :
  (all_digits (unsigned_part s) = false ∧
   (leading_digits (unsigned_part s) < 20)%nat) ∨
  unsigned_part s = EmptyString →
  (Go.Atoi s).1 = 0.
Proof.
  unfold unsigned_part, Go.Atoi, Go.ParseInt.
  destruct (Go.strip_sign s) as [neg body] eqn:Hsign. simpl.
  intros Hbody.
  assert (Go.ParseUint body = (0, Some Go.ErrSyntax)) as Hparse.
  { destruct Hbody as [[Hall Hlead] | ->]; [|done].
    unfold Go.ParseUint. destruct body as [|c body]; [done|].
    apply ParseUint_loop_syntax; [done|lia|].
    change (10 ^ 19) with (1 * 10 ^ Z.of_nat 19).
    apply Z.mul_le_mono_nonneg_l; [lia|].
    apply Z.pow_le_mono_r; lia. }
  destruct ((0 <? String.length s)%nat && (String.length s <? 19)%nat).
  - destruct Hbody as [[Hall _] | ->]; [|done].
    destruct body; [done|]. by rewrite digits_not_all.
  - destruct s; [done|]. by rewrite Hparse.
Qed.

(** X18.  Only a decimal timestamp makes the program back off.  When a
    429 or 503 carries a [Retry-After] that is absent, or that after an
    optional sign is empty or has a byte that is not a digit behind fewer
    than twenty digits (an HTTP date, say), [savePage] neither sleeps nor
    retries: it returns nil after that one request. *)
Theorem non_numeric_retry_after_is_ignored (env : Env) (u : string)
    (r : Response) :
  attempt env 0 u = Responded r →
  StatusCode r = 429 ∨ StatusCode r = 503 →
  (all_digits (unsigned_part (RetryAfter r)) = false ∧
   (leading_digits (unsigned_part (RetryAfter r)) < 20)%nat) ∨
  unsigned_part (RetryAfter r) = EmptyString →
  savePage env u =
    Some (SavedNil,
          {| retry := 0; urlstr := u; passes := 1; events := [Get u] |}).
Proof.
  intros Ha Hs Hhdr. apply Atoi_invalid in Hhdr.
  unfold savePage. change (Z.to_nat maxRetry) with 3%nat.
  rewrite loop_S. change (retry (start u) <? maxRetry) with true. cbv iota.
  assert (body env (start u) =
    (CBreak, {| retry := 0; urlstr := u; passes := 1;
                events := [Get u] |})) as ->; [|done].
  unfold body. simpl. rewrite Ha, Hhdr. simpl.
  assert (redirect_and_5xx
            (log_event (next_pass (start u)) (Get u)) r =
          (CBreak, {| retry := 0; urlstr := u; passes := 1;
                      events := [Get u] |})) as Hrest.
  { rewrite redirect_and_5xx_low by lia.
    rewrite quot_100_3_false by lia. done. }
  destruct Hs as [-> | ->]; exact Hrest.
Qed.

Lemma non_numeric_retry_after_is_ignored_witness :
  savePage
    (world (always {| StatusCode := 503;
                      RetryAfter := "Wed, 21 Oct 2015 07:28:00 GMT";
                      Location := None |}) noon)
    "http://example.com/" =
  Some (SavedNil,
        {| retry := 0; urlstr := "http://example.com/"; passes := 1;
           events := [Get "http://example.com/"] |}).
Proof.
  apply (non_numeric_retry_after_is_ignored _ _
           {| StatusCode := 503;
              RetryAfter := "Wed, 21 Oct 2015 07:28:00 GMT";
              Location := None |}).
  - reflexivity.
  - by right.
  - left. split; [reflexivity|]. vm_compute. lia.
Defined.

(** The bound of twenty digits cannot be dropped: on twenty digits that
    overflow, [Atoi] does not look at what follows. *)
Lemma Atoi_overflow_sample :
  Go.Atoi "18446744073709551616x" = (Go.MaxInt, Some "value out of range") ∧
  Go.Atoi "1844674407370955161x" = (0, Some "invalid syntax") ∧
  Go.Atoi "-99999999999999999999" = (Go.MinInt, Some "value out of range") ∧
  Go.Atoi "9223372036854775807" = (Go.MaxInt, None).
Proof. split_and!; vm_compute; reflexivity. Qed.
